(** * word-quiz-app: the study-session core, embedded and verified

    The repository holds three revisions of one React component,
    [WordQuizApp]:
    - [src/src/App.jsx]: the current revision (card view with a per-day
      shuffle cached by [useMemo], list view, confusing-word set);
    - [src/unnamed/part_001]: the animation-gated revision ([pendingIndex],
      [goToWord], [handleTransitionEnd]), without a shuffle;
    - [src/unnamed/part_000]: the first revision (no list view).

    JavaScript numbers that hold list lengths, days and indices are
    integers far below 2^53, where double arithmetic is exact; they are
    modelled as [Z]. Arrays are modelled as lists; where identity matters
    (the [useMemo] dependency on [words], the copy made by [shuffleArray])
    it is modelled explicitly. *)

From stdpp Require Import base numbers list list_numbers strings sets gmap.
From Stdlib Require Import ZArith Lia Ascii DecimalZ.

Local Open Scope Z_scope.

(** * Part I: the model *)

(** ** JavaScript built-ins used by the component *)

Module JS.

(** The clamping of a relative index in [Array.prototype.slice]:
    a negative index counts from the end of the array. *)
Definition rel_index (len i : Z) : Z :=
  if i <? 0 then Z.max (len + i) 0 else Z.min i len.

(** [arr.slice(start, end)] *)
Definition slice {A} (arr : list A) (start end_ : Z) : list A :=
  let len := Z.of_nat (length arr) in
  let k := rel_index len start in
  let final := rel_index len end_ in
  take (Z.to_nat (final - k)) (drop (Z.to_nat k) arr).

(** [arr[i]]: [undefined] (here [None]) outside the array. *)
Definition get {A} (arr : list A) (i : Z) : option A :=
  if i <? 0 then None else arr !! Z.to_nat i.

(** [arr.length] *)
Definition len {A} (arr : list A) : Z := Z.of_nat (length arr).

(** [Math.ceil(n / d)] for an integer [n] and a positive integer [d]. *)
Definition ceil_div (n d : Z) : Z :=
  if n mod d =? 0 then n / d else n / d + 1.

(** [arr.filter((_, i) => i !== k)] *)
Fixpoint filter_index_ne {A} (arr : list A) (i k : Z) : list A :=
  match arr with
  | [] => []
  | x :: rest =>
      if i =? k then filter_index_ne rest (i + 1) k
      else x :: filter_index_ne rest (i + 1) k
  end.

End JS.

(** ** The day partitioner

    Both revisions cut the corpus with
    [words.slice((currentDay - 1) * 100, (currentDay - 1) * 100 + 100)]. *)

Definition daySlice {A} (words : list A) (currentDay : Z) : list A :=
  let start := (currentDay - 1) * 100 in
  JS.slice words start (start + 100).

(** [setTotalDays(Math.ceil(cleaned.length / 100))] *)
Definition dayCount {A} (words : list A) : Z :=
  JS.ceil_div (JS.len words) 100.

(** ** Word records and [JSON.stringify]

    A row object produced by the CSV parser ([header: true],
    [dynamicTyping: true]) is an ordered mapping from column names to
    cells. Cells are [null], booleans, strings and numbers; of the
    numbers, the integers (printed in plain decimal by
    [Number::toString]) are modelled. Strings are byte strings: the
    characters that [JSON.stringify] escapes are all ASCII. *)

Module JSON.

Inductive Cell :=
| CNull
| CBool (b : bool)
| CNum (n : Z)
| CStr (s : string).

#[global] Instance Cell_eq_dec : EqDecision Cell.
Proof. solve_decision. Defined.

Definition WordRecord := list (string * Cell).

#[global] Instance WordRecord_eq_dec : EqDecision WordRecord.
Proof. unfold WordRecord. apply _. Defined.

Definition dquote : ascii := "034"%char.
Definition bslash : ascii := "092"%char.

Definition hex_digit (n : nat) : ascii :=
  nth n ["0"; "1"; "2"; "3"; "4"; "5"; "6"; "7"; "8"; "9";
         "a"; "b"; "c"; "d"; "e"; "f"]%char "0"%char.

(** The two-character escapes of [QuoteJSONString]. *)
Definition short_escape (c : ascii) : option ascii :=
  if Ascii.eqb c "008" then Some "b"%char
  else if Ascii.eqb c "009" then Some "t"%char
  else if Ascii.eqb c "010" then Some "n"%char
  else if Ascii.eqb c "012" then Some "f"%char
  else if Ascii.eqb c "013" then Some "r"%char
  else if Ascii.eqb c dquote then Some dquote
  else if Ascii.eqb c bslash then Some bslash
  else None.

Definition escape_char (c : ascii) : string :=
  match short_escape c with
  | Some e => String bslash (String e "")
  | None =>
      let n := nat_of_ascii c in
      if (n <? 32)%nat then
        String bslash
          ("u00" +:+ String (hex_digit (n / 16)) (String (hex_digit (n mod 16)) ""))
      else String c ""
  end.

Fixpoint escape (s : string) : string :=
  match s with
  | EmptyString => ""
  | String c rest => escape_char c +:+ escape rest
  end.

Definition quote (s : string) : string :=
  String dquote (escape s +:+ String dquote "").

Fixpoint uint_text (u : Decimal.uint) : string :=
  match u with
  | Decimal.Nil => ""
  | Decimal.D0 r => String "0" (uint_text r)
  | Decimal.D1 r => String "1" (uint_text r)
  | Decimal.D2 r => String "2" (uint_text r)
  | Decimal.D3 r => String "3" (uint_text r)
  | Decimal.D4 r => String "4" (uint_text r)
  | Decimal.D5 r => String "5" (uint_text r)
  | Decimal.D6 r => String "6" (uint_text r)
  | Decimal.D7 r => String "7" (uint_text r)
  | Decimal.D8 r => String "8" (uint_text r)
  | Decimal.D9 r => String "9" (uint_text r)
  end.

Definition int_text (d : Decimal.int) : string :=
  match d with
  | Decimal.Pos u => uint_text u
  | Decimal.Neg u => String "-" (uint_text u)
  end.

Definition number_text (n : Z) : string := int_text (Z.to_int n).

Definition cell_text (c : Cell) : string :=
  match c with
  | CNull => "null"
  | CBool true => "true"
  | CBool false => "false"
  | CNum n => number_text n
  | CStr s => quote s
  end.

Definition member_text (kv : string * Cell) : string :=
  quote kv.1 +:+ String ":" (cell_text kv.2).

Fixpoint members_text (r : WordRecord) : string :=
  match r with
  | [] => ""
  | [kv] => member_text kv
  | kv :: rest => member_text kv +:+ String "," (members_text rest)
  end.

(** [JSON.stringify(row)] *)
Definition stringify (r : WordRecord) : string :=
  String "{" (members_text r +:+ "}").

Fixpoint elements_text (l : list WordRecord) : string :=
  match l with
  | [] => ""
  | [r] => stringify r
  | r :: rest => stringify r +:+ String "," (elements_text rest)
  end.

(** [JSON.stringify(rows)] for an array of row objects *)
Definition stringify_array (l : list WordRecord) : string :=
  String "[" (elements_text l +:+ "]").

(** A reader for one escaped character: the left inverse of
    [escape_char] used to show that quoting loses nothing. *)
Definition hex_value (c : ascii) : option nat :=
  match Ascii.is_nat c with
  | Some d => Some d
  | None =>
      if Ascii.eqb c "a" then Some 10%nat
      else if Ascii.eqb c "b" then Some 11%nat
      else if Ascii.eqb c "c" then Some 12%nat
      else if Ascii.eqb c "d" then Some 13%nat
      else if Ascii.eqb c "e" then Some 14%nat
      else if Ascii.eqb c "f" then Some 15%nat
      else None
  end.

Definition unescape_short (e : ascii) : option ascii :=
  if Ascii.eqb e "b" then Some "008"%char
  else if Ascii.eqb e "t" then Some "009"%char
  else if Ascii.eqb e "n" then Some "010"%char
  else if Ascii.eqb e "f" then Some "012"%char
  else if Ascii.eqb e "r" then Some "013"%char
  else if Ascii.eqb e dquote then Some dquote
  else if Ascii.eqb e bslash then Some bslash
  else None.

Definition unescape_head (s : string) : option (ascii * string) :=
  match s with
  | EmptyString => None
  | String c rest =>
      if Ascii.eqb c dquote then None
      else if Ascii.eqb c bslash then
        match rest with
        | String e rest' =>
            if Ascii.eqb e "u" then
              match rest' with
              | String _ (String _ (String h (String l rest''))) =>
                  match hex_value h, hex_value l with
                  | Some a, Some b => Some (ascii_of_nat (16 * a + b), rest'')
                  | _, _ => None
                  end
              | _ => None
              end
            else match unescape_short e with
                 | Some c' => Some (c', rest')
                 | None => None
                 end
        | EmptyString => None
        end
      else Some (c, rest)
  end.

Definition delimited (s : string) : bool :=
  match s with
  | String c _ => Ascii.eqb c "," || Ascii.eqb c "}"
  | EmptyString => false
  end.

(** The first character of a cell's text tells its kind. *)
Definition head_class (s : string) : nat :=
  match s with
  | String c _ =>
      if Ascii.eqb c "n" then 1
      else if Ascii.eqb c "t" then 2
      else if Ascii.eqb c "f" then 3
      else if Ascii.eqb c dquote then 4
      else 0
  | EmptyString => 0
  end%nat.

Definition cell_class (c : Cell) : nat :=
  match c with
  | CNull => 1
  | CBool true => 2
  | CBool false => 3
  | CStr _ => 4
  | CNum _ => 0
  end%nat.

(** What follows the first member of a non-empty record. *)
Definition members_tail (rest : WordRecord) (r : string) : string :=
  match rest with
  | [] => String "}" r
  | _ => String "," (members_text rest +:+ String "}" r)
  end.

End JSON.

(** ** The random source

    [Math.random] is modelled by an oracle: the outcomes of the successive
    calls are fixed in advance, and a counter tells how many were used.
    For [Math.floor(Math.random() * n)] the oracle gives an integer, which
    is reduced modulo [n]: the product of a number of [[0, 1)] by [n]
    has its floor in [[0, n)], and every value there can occur. *)

Record Rng := mkRng { outcomes : nat -> nat; consumed : nat }.

Definition random_below (n : nat) (g : Rng) : nat * Rng :=
  ((outcomes g (consumed g) mod n)%nat, mkRng (outcomes g) (S (consumed g))).

(** The oracle whose first outcomes are the given choices. *)
Definition rng_of (cs : list nat) : Rng := mkRng (fun k => nth k cs O) O.

(** ** [shuffleArray] (src/src/App.jsx, lines 41-48) *)

Section Shuffle.
Local Open Scope nat_scope.
Context {A : Type}.
Implicit Types (a arr : list A) (i j k : nat) (g : Rng).

(** [[a[i], a[j]] = [a[j], a[i]]]: both reads come first, then
    [a[i]] and [a[j]] are written in this order. The loop only swaps
    inside the array ([j <= i < a.length]); outside it the model leaves
    the array alone, where JavaScript would extend it. *)
Definition swap a i j : list A :=
  match a !! j, a !! i with
  | Some y, Some x => <[j := x]> (<[i := y]> a)
  | _, _ => a
  end.

(** [for (let i = a.length - 1; i > 0; i -= 1) { ... }] *)
Fixpoint shuffle_loop i a g : list A * Rng :=
  match i with
  | O => (a, g)
  | S i' =>
      let '(j, g') := random_below (i + 1) g in
      shuffle_loop i' (swap a i j) g'
  end.

(** On values: [const a = [...arr]; ...; return a]. For the empty
    array, [a.length - 1] is [-1] and the loop does not run, as with
    the truncated subtraction here. *)
Definition shuffleArray arr g : list A * Rng :=
  shuffle_loop (length arr - 1) arr g.

(** *** The same function on a store of array objects

    An array value is a reference into the store; [[...arr]] allocates
    a new array, and the swaps write into that one. *)
Local Abbreviation Heap := (list (list A)).

Definition heap_read (h : Heap) (r : nat) : list A := default [] (h !! r).

Definition heap_alloc (h : Heap) (a : list A) : nat * Heap :=
  (length h, h ++ [a]).

Definition heap_swap (h : Heap) (r i j : nat) : Heap :=
  alter (fun a => swap a i j) r h.

Fixpoint shuffle_loop_heap i (r : nat) (h : Heap) g : Heap * Rng :=
  match i with
  | O => (h, g)
  | S i' =>
      let '(j, g') := random_below (i + 1) g in
      shuffle_loop_heap i' r (heap_swap h r i j) g'
  end.

Definition shuffleArray_heap (arr : nat) (h : Heap) g : nat * Heap * Rng :=
  let '(a, h1) := heap_alloc h (heap_read h arr) in
  let '(h2, g') := shuffle_loop_heap (length (heap_read h1 a) - 1) a h1 g in
  (a, h2, g').

(** The loop driven by a list of choices, for counting outcomes. *)
Fixpoint shuffle_steps i a (cs : list nat) : list A :=
  match i with
  | O => a
  | S i' => shuffle_steps i' (swap a i (hd O cs mod (i + 1))) (tl cs)
  end.

End Shuffle.

(** All the choice sequences of a run of [i] swaps: the swap at index [k]
    picks [j] among the [k + 1] values [0 .. k]. *)
Fixpoint choices (i : nat) : list (list nat) :=
  match i with
  | O => [[]]
  | S i' => j ← seq 0 (S i); (fun cs => j :: cs) <$> choices i'
  end%nat.

(** ** Shared vocabulary of the component's state *)

Inductive Direction := KoToEn | EnToKo.
Inductive ViewMode := Card | ListView.

Definition toggle_direction (m : Direction) : Direction :=
  match m with KoToEn => EnToKo | EnToKo => KoToEn end.

Definition toggle_view (v : ViewMode) : ViewMode :=
  match v with Card => ListView | ListView => Card end.

(** The key of the persisted confusing-word set. *)
Definition storage_key : string := "confusingWords".

(** ** src/src/App.jsx: the current revision *)

Module App.
Import JSON.

(** The [words] array: [useMemo] compares its dependencies with
    [Object.is], so the identity of the array object is kept next to
    its contents. *)
Record WordsArray := mkWords { array_id : nat; items : list WordRecord }.

(** The [useState] cells. *)
Record State := mkState {
  words : WordsArray;
  currentDay : Z;
  currentIndex : Z;
  isFlipped : bool;
  mode : Direction;
  confusingWords : list WordRecord;
  showConfusing : bool;
  totalDays : Z;
  isLoading : bool;
  error : string;
  viewMode : ViewMode;
  hiddenAnswers : gset nat
}.

Definition setWords v s :=
  mkState v (currentDay s) (currentIndex s) (isFlipped s) (mode s)
    (confusingWords s) (showConfusing s) (totalDays s) (isLoading s)
    (error s) (viewMode s) (hiddenAnswers s).
Definition setCurrentDay v s :=
  mkState (words s) v (currentIndex s) (isFlipped s) (mode s)
    (confusingWords s) (showConfusing s) (totalDays s) (isLoading s)
    (error s) (viewMode s) (hiddenAnswers s).
Definition setCurrentIndex v s :=
  mkState (words s) (currentDay s) v (isFlipped s) (mode s)
    (confusingWords s) (showConfusing s) (totalDays s) (isLoading s)
    (error s) (viewMode s) (hiddenAnswers s).
Definition setIsFlipped v s :=
  mkState (words s) (currentDay s) (currentIndex s) v (mode s)
    (confusingWords s) (showConfusing s) (totalDays s) (isLoading s)
    (error s) (viewMode s) (hiddenAnswers s).
Definition setMode v s :=
  mkState (words s) (currentDay s) (currentIndex s) (isFlipped s) v
    (confusingWords s) (showConfusing s) (totalDays s) (isLoading s)
    (error s) (viewMode s) (hiddenAnswers s).
Definition setConfusingWords v s :=
  mkState (words s) (currentDay s) (currentIndex s) (isFlipped s) (mode s)
    v (showConfusing s) (totalDays s) (isLoading s)
    (error s) (viewMode s) (hiddenAnswers s).
Definition setShowConfusing v s :=
  mkState (words s) (currentDay s) (currentIndex s) (isFlipped s) (mode s)
    (confusingWords s) v (totalDays s) (isLoading s)
    (error s) (viewMode s) (hiddenAnswers s).
Definition setTotalDays v s :=
  mkState (words s) (currentDay s) (currentIndex s) (isFlipped s) (mode s)
    (confusingWords s) (showConfusing s) v (isLoading s)
    (error s) (viewMode s) (hiddenAnswers s).
Definition setIsLoading v s :=
  mkState (words s) (currentDay s) (currentIndex s) (isFlipped s) (mode s)
    (confusingWords s) (showConfusing s) (totalDays s) v
    (error s) (viewMode s) (hiddenAnswers s).
Definition setError v s :=
  mkState (words s) (currentDay s) (currentIndex s) (isFlipped s) (mode s)
    (confusingWords s) (showConfusing s) (totalDays s) (isLoading s)
    v (viewMode s) (hiddenAnswers s).
Definition setViewMode v s :=
  mkState (words s) (currentDay s) (currentIndex s) (isFlipped s) (mode s)
    (confusingWords s) (showConfusing s) (totalDays s) (isLoading s)
    (error s) v (hiddenAnswers s).
Definition setHiddenAnswers v s :=
  mkState (words s) (currentDay s) (currentIndex s) (isFlipped s) (mode s)
    (confusingWords s) (showConfusing s) (totalDays s) (isLoading s)
    (error s) (viewMode s) v.

(** The value cached by [useMemo]. *)
Record DaySlices := mkSlices {
  ordered : list WordRecord;
  shuffled : list WordRecord
}.

(** The hook cell of [useMemo(..., [words, currentDay])]: the
    dependencies of the last computation and its result. *)
Record MemoCell := mkMemo {
  dep_words : nat;
  dep_day : Z;
  value : DaySlices
}.

(** The component instance: its state cells, the memo cell, and the
    environment it touches ([Math.random], [localStorage], and the
    supply of fresh array identities). *)
Record Component := mkComponent {
  state : State;
  memo : option MemoCell;
  rng : Rng;
  localStorage : gmap string string;
  nextArrayId : nat
}.

Definition with_state (f : State -> State) (c : Component) : Component :=
  mkComponent (f (state c)) (memo c) (rng c) (localStorage c) (nextArrayId c).

Definition setItem (k v : string) (c : Component) : Component :=
  mkComponent (state c) (memo c) (rng c) (<[k := v]> (localStorage c))
    (nextArrayId c).

(** The body of the [useMemo] callback (lines 110-115). *)
Definition compute_daySlices (s : State) (g : Rng) : DaySlices * Rng :=
  let ordered := daySlice (items (words s)) (currentDay s) in
  let '(shuffled, g') := shuffleArray ordered g in
  (mkSlices ordered shuffled, g').

Definition deps_unchanged (m : MemoCell) (s : State) : bool :=
  (dep_words m =? array_id (words s))%nat && (dep_day m =? currentDay s).

(** One render: [useMemo] keeps the cached value while [words] and
    [currentDay] are the ones of the last computation, and runs the
    callback otherwise. *)
Definition render (c : Component) : Component :=
  let recompute :=
    let '(v, g') := compute_daySlices (state c) (rng c) in
    mkComponent (state c)
      (Some (mkMemo (array_id (words (state c))) (currentDay (state c)) v))
      g' (localStorage c) (nextArrayId c) in
  match memo c with
  | Some m => if deps_unchanged m (state c) then c else recompute
  | None => recompute
  end.

Definition daySlices (c : Component) : DaySlices :=
  match memo c with
  | Some m => value m
  | None => mkSlices [] []
  end.

(** The memo cell is up to date with the state. *)
Definition rendered (c : Component) : Prop :=
  exists m, memo c = Some m /\ deps_unchanged m (state c) = true.

(** The active-set resolver (lines 119-123). *)
Definition currentWords (c : Component) : list WordRecord :=
  if showConfusing (state c) then confusingWords (state c)
  else match viewMode (state c) with
       | Card => shuffled (daySlices c)
       | ListView => ordered (daySlices c)
       end.

Definition currentWord (c : Component) : option WordRecord :=
  JS.get (currentWords c) (currentIndex (state c)).

(** *** Handlers (lines 134-185) *)

Definition flipCard (c : Component) : Component :=
  with_state (fun s => setIsFlipped (negb (isFlipped s)) s) c.

Definition prevWord (c : Component) : Component :=
  if currentIndex (state c) >? 0 then
    with_state (fun s => setCurrentIndex (currentIndex s - 1)
                           (setIsFlipped false s)) c
  else c.

Definition nextWord (c : Component) : Component :=
  if currentIndex (state c) <? JS.len (currentWords c) - 1 then
    with_state (fun s => setCurrentIndex (currentIndex s + 1)
                           (setIsFlipped false s)) c
  else c.

Definition addToConfusing (c : Component) : Component :=
  match currentWord c with
  | None => c
  | Some w =>
      let exists_ :=
        existsb (fun w' => String.eqb (stringify w') (stringify w))
          (confusingWords (state c)) in
      if negb exists_ then
        let updated := confusingWords (state c) ++ [w] in
        setItem storage_key (stringify_array updated)
          (with_state (setConfusingWords updated) c)
      else c
  end.

Definition removeFromConfusing (c : Component) : Component :=
  let s := state c in
  let updated := JS.filter_index_ne (confusingWords s) 0 (currentIndex s) in
  let c1 := setItem storage_key (stringify_array updated)
              (with_state (setConfusingWords updated) c) in
  let c2 :=
    if (currentIndex s >=? JS.len updated) && negb (JS.len updated =? 0)
    then with_state (setCurrentIndex (JS.len updated - 1)) c1
    else c1 in
  with_state (setIsFlipped false) c2.

Definition changeDay (day : Z) (c : Component) : Component :=
  with_state (fun s =>
    setHiddenAnswers ∅ (setShowConfusing false (setIsFlipped false
      (setCurrentIndex 0 (setCurrentDay day s))))) c.

Definition toggleConfusingMode (c : Component) : Component :=
  with_state (fun s =>
    setHiddenAnswers ∅ (setIsFlipped false (setCurrentIndex 0
      (setShowConfusing (negb (showConfusing s)) s)))) c.

Definition toggleAnswer (idx : nat) (c : Component) : Component :=
  with_state (fun s =>
    let setCopy := hiddenAnswers s in
    setHiddenAnswers
      (if decide (idx ∈ setCopy) then setCopy ∖ {[idx]} else setCopy ∪ {[idx]})
      s) c.

Definition toggleAllAnswers (c : Component) : Component :=
  if (size (hiddenAnswers (state c)) =? length (currentWords c))%nat
  then with_state (setHiddenAnswers ∅) c
  else with_state
         (setHiddenAnswers
            (list_to_set (seq 0 (length (currentWords c))))) c.

Definition toggleDirection (c : Component) : Component :=
  with_state (fun s => setMode (toggle_direction (mode s)) s) c.

Definition toggleViewMode (c : Component) : Component :=
  with_state (fun s => setViewMode (toggle_view (viewMode s)) s) c.

(** The [complete] callback of the CSV parser (lines 63-79), from the
    cleaned rows on: [setWords] stores a new array object. *)
Definition loadCSV_complete (cleaned : list WordRecord) (c : Component)
    : Component :=
  let c' := with_state (fun s =>
    setIsLoading false
      (setTotalDays (JS.ceil_div (JS.len cleaned) 100)
         (setWords (mkWords (nextArrayId c) cleaned) s))) c in
  mkComponent (state c') (memo c') (rng c') (localStorage c')
    (S (nextArrayId c)).

Definition loadCSV_error (msg : string) (c : Component) : Component :=
  with_state (fun s => setIsLoading false (setError msg s)) c.

(** The memo cell is sound: array identities come from the supply, so
    a cell computed for the identity of the current [words] array was
    computed from its contents. *)
Definition memo_sound (c : Component) : Prop :=
  (array_id (words (state c)) < nextArrayId c)%nat
  /\ forall m, memo c = Some m ->
       (dep_words m < nextArrayId c)%nat
       /\ (dep_words m = array_id (words (state c)) ->
           ordered (value m) = daySlice (items (words (state c))) (dep_day m)
           /\ shuffled (value m) ≡ₚ ordered (value m)).

(** The current position designates a member of the confusing set, or
    the set is empty and the position is 0: the positions at which the
    remove button can be pressed. *)
Definition confusing_position_ok (s : State) : Prop :=
  0 <= currentIndex s < JS.len (confusingWords s)
  \/ (confusingWords s = [] /\ currentIndex s = 0).

(** *** Events *)

Inductive Event :=
| CsvLoaded (cleaned : list WordRecord)
| CsvFailed (msg : string)
| FlipCard
| PrevWord
| NextWord
| AddToConfusing
| RemoveFromConfusing
| ChangeDay (day : Z)
| ToggleConfusingMode
| ToggleAnswer (idx : nat)
| ToggleAllAnswers
| ToggleDirection
| ToggleViewMode.

Definition handle (e : Event) (c : Component) : Component :=
  match e with
  | CsvLoaded cleaned => loadCSV_complete cleaned c
  | CsvFailed msg => loadCSV_error msg c
  | FlipCard => flipCard c
  | PrevWord => prevWord c
  | NextWord => nextWord c
  | AddToConfusing => addToConfusing c
  | RemoveFromConfusing => removeFromConfusing c
  | ChangeDay day => changeDay day c
  | ToggleConfusingMode => toggleConfusingMode c
  | ToggleAnswer idx => toggleAnswer idx c
  | ToggleAllAnswers => toggleAllAnswers c
  | ToggleDirection => toggleDirection c
  | ToggleViewMode => toggleViewMode c
  end.

(** The two presentation switches. *)
Inductive Toggle := TViewMode | TDirection.

Definition toggle_event (t : Toggle) : Event :=
  match t with TViewMode => ToggleViewMode | TDirection => ToggleDirection end.

(** An event runs its handler, then the component renders again. *)
Definition step (e : Event) (c : Component) : Component :=
  render (handle e c).

Definition run (es : list Event) (c : Component) : Component :=
  foldl (fun c e => step e c) c es.

(** The first render: the initial [useState] values, the confusing
    set read from [localStorage] by the mount effect, an empty memo
    cell. *)
Definition initial_state (saved : list WordRecord) : State :=
  mkState (mkWords 0 []) 1 0 false KoToEn saved false 0 true "" Card ∅.

Definition mount (saved : list WordRecord) (g : Rng)
    (store : gmap string string) : Component :=
  render (mkComponent (initial_state saved) None g store 1).

Inductive reachable : Component -> Prop :=
| reachable_mount saved g store : reachable (mount saved g store)
| reachable_step e c : reachable c -> reachable (step e c).

(** *** What the rendered tree lets happen (lines 187-452)

    While [isLoading] holds, or once [error] is set, the component
    returns the loading or the error screen and offers no control. The
    day selector is disabled in confusing mode and offers the days
    [1 .. totalDays]; the prev and next buttons are disabled at the
    first and the last position; the card controls and the add/remove
    button exist in card view only, the answer toggles in list view
    only. The CSV load runs once, from the mount effect, and ends by
    clearing [isLoading]. *)
Definition ui_shown (s : State) : bool :=
  negb (isLoading s) && String.eqb (error s) "".

Definition card_view (s : State) : bool :=
  match viewMode s with Card => true | ListView => false end.

Definition enabled (e : Event) (c : Component) : bool :=
  let s := state c in
  match e with
  | CsvLoaded _ | CsvFailed _ => isLoading s
  | FlipCard => ui_shown s && card_view s
  | PrevWord => ui_shown s && card_view s && negb (currentIndex s =? 0)
  | NextWord =>
      ui_shown s && card_view s
      && negb (currentIndex s =? JS.len (currentWords c) - 1)
  | AddToConfusing => ui_shown s && card_view s && negb (showConfusing s)
  | RemoveFromConfusing => ui_shown s && card_view s && showConfusing s
  | ChangeDay day =>
      ui_shown s && negb (showConfusing s)
      && (1 <=? day) && (day <=? totalDays s)
  | ToggleConfusingMode | ToggleDirection | ToggleViewMode => ui_shown s
  | ToggleAnswer idx =>
      ui_shown s && negb (card_view s)
      && (idx <? length (currentWords c))%nat
  | ToggleAllAnswers =>
      ui_shown s && negb (card_view s)
      && negb (length (currentWords c) =? 0)%nat
  end.

(** The components a session started at [c0] goes through. *)
Inductive session (c0 : Component) : Component -> Prop :=
| session_start : session c0 c0
| session_step e c :
    session c0 c -> enabled e c = true -> session c0 (step e c).

(** *** The two faces of a card (lines 125-131 and 392-395)

    [Object.keys(word)] gives the column names in order; the first two
    are read back from the record, and a falsy cell ([null], the empty
    string, [0], [false]) or a missing one is shown as the empty
    string. A missing column name is [undefined], which as a property
    key reads the property called "undefined". *)
Fixpoint get_prop (r : WordRecord) (k : string) : option Cell :=
  match r with
  | [] => None
  | (k', v) :: rest => if String.eqb k' k then Some v else get_prop rest k
  end.

Definition key_at (keys : list string) (i : nat) : string :=
  default "undefined" (keys !! i).

(** [v || ''] *)
Definition or_empty (v : option Cell) : Cell :=
  match v with
  | Some (CStr s) => CStr s
  | Some (CNum n) => if n =? 0 then CStr "" else CNum n
  | Some (CBool true) => CBool true
  | Some (CBool false) | Some CNull | None => CStr ""
  end.

Definition word_faces (r : WordRecord) : Cell * Cell :=
  let keys := r.*1 in
  (or_empty (get_prop r (key_at keys 0)),
   or_empty (get_prop r (key_at keys 1))).

(** [korean] and [english] of the current word *)
Definition getWordKeys (w : option WordRecord) : Cell * Cell :=
  match w with
  | None => (CStr "", CStr "")
  | Some r => word_faces r
  end.

(** What the front and the back of the card show. *)
Definition front_face (m : Direction) (ke : Cell * Cell) : Cell :=
  match m with KoToEn => ke.1 | EnToKo => ke.2 end.

Definition back_face (m : Direction) (ke : Cell * Cell) : Cell :=
  match m with KoToEn => ke.2 | EnToKo => ke.1 end.

End App.

(** ** src/unnamed/part_001: the animation-gated revision

    The displayed word changes only when the flip animation of the card
    has ended: [goToWord] records the target in [pendingIndex], and the
    [transitionend] listener of the card commits it. This revision has
    no shuffle; [getCurrentWords] slices the corpus on every render. *)

Module Gated.
Import JSON.

Record State := mkState {
  words : list WordRecord;
  currentDay : Z;
  currentIndex : Z;
  isFlipped : bool;
  mode : Direction;
  confusingWords : list WordRecord;
  showConfusing : bool;
  totalDays : Z;
  isLoading : bool;
  error : string;
  viewMode : ViewMode;
  hiddenAnswers : gset nat;
  pendingIndex : option Z;
  localStorage : gmap string string
}.

Definition setCurrentDay v s :=
  mkState (words s) v (currentIndex s) (isFlipped s) (mode s)
    (confusingWords s) (showConfusing s) (totalDays s) (isLoading s)
    (error s) (viewMode s) (hiddenAnswers s) (pendingIndex s)
    (localStorage s).
Definition setCurrentIndex v s :=
  mkState (words s) (currentDay s) v (isFlipped s) (mode s)
    (confusingWords s) (showConfusing s) (totalDays s) (isLoading s)
    (error s) (viewMode s) (hiddenAnswers s) (pendingIndex s)
    (localStorage s).
Definition setIsFlipped v s :=
  mkState (words s) (currentDay s) (currentIndex s) v (mode s)
    (confusingWords s) (showConfusing s) (totalDays s) (isLoading s)
    (error s) (viewMode s) (hiddenAnswers s) (pendingIndex s)
    (localStorage s).
Definition setMode v s :=
  mkState (words s) (currentDay s) (currentIndex s) (isFlipped s) v
    (confusingWords s) (showConfusing s) (totalDays s) (isLoading s)
    (error s) (viewMode s) (hiddenAnswers s) (pendingIndex s)
    (localStorage s).
Definition setConfusingWords v s :=
  mkState (words s) (currentDay s) (currentIndex s) (isFlipped s) (mode s)
    v (showConfusing s) (totalDays s) (isLoading s)
    (error s) (viewMode s) (hiddenAnswers s) (pendingIndex s)
    (localStorage s).
Definition setShowConfusing v s :=
  mkState (words s) (currentDay s) (currentIndex s) (isFlipped s) (mode s)
    (confusingWords s) v (totalDays s) (isLoading s)
    (error s) (viewMode s) (hiddenAnswers s) (pendingIndex s)
    (localStorage s).
Definition setViewMode v s :=
  mkState (words s) (currentDay s) (currentIndex s) (isFlipped s) (mode s)
    (confusingWords s) (showConfusing s) (totalDays s) (isLoading s)
    (error s) v (hiddenAnswers s) (pendingIndex s)
    (localStorage s).
Definition setHiddenAnswers v s :=
  mkState (words s) (currentDay s) (currentIndex s) (isFlipped s) (mode s)
    (confusingWords s) (showConfusing s) (totalDays s) (isLoading s)
    (error s) (viewMode s) v (pendingIndex s)
    (localStorage s).
Definition setPendingIndex v s :=
  mkState (words s) (currentDay s) (currentIndex s) (isFlipped s) (mode s)
    (confusingWords s) (showConfusing s) (totalDays s) (isLoading s)
    (error s) (viewMode s) (hiddenAnswers s) v
    (localStorage s).
Definition setItem (k v : string) s :=
  mkState (words s) (currentDay s) (currentIndex s) (isFlipped s) (mode s)
    (confusingWords s) (showConfusing s) (totalDays s) (isLoading s)
    (error s) (viewMode s) (hiddenAnswers s) (pendingIndex s)
    (<[k := v]> (localStorage s)).

(** [getCurrentWords] (lines 113-118) *)
Definition getCurrentWords (s : State) : list WordRecord :=
  if showConfusing s then confusingWords s
  else
    let startIndex := (currentDay s - 1) * 100 in
    let endIndex := startIndex + 100 in
    JS.slice (words s) startIndex endIndex.

Definition currentWord (s : State) : option WordRecord :=
  JS.get (getCurrentWords s) (currentIndex s).

(** The [transitionend] listener of the card (lines 100-106). *)
Definition handleTransitionEnd (s : State) : State :=
  match pendingIndex s with
  | Some p => setPendingIndex None (setIsFlipped false (setCurrentIndex p s))
  | None => s
  end.

(** [goToWord] (lines 135-139) *)
Definition goToWord (newIdx : Z) (s : State) : State :=
  match pendingIndex s with
  | Some _ => s
  | None => setPendingIndex (Some newIdx) (setIsFlipped true s)
  end.

Definition nextWord (s : State) : State :=
  if currentIndex s <? JS.len (getCurrentWords s) - 1
  then goToWord (currentIndex s + 1) s else s.

Definition prevWord (s : State) : State :=
  if currentIndex s >? 0 then goToWord (currentIndex s - 1) s else s.

Definition flipCard (s : State) : State :=
  setIsFlipped (negb (isFlipped s)) s.

Definition addToConfusing (s : State) : State :=
  match currentWord s with
  | None => s
  | Some w =>
      let isAlreadyAdded :=
        existsb (fun w' => String.eqb (stringify w') (stringify w))
          (confusingWords s) in
      if negb isAlreadyAdded then
        let newList := confusingWords s ++ [w] in
        setItem storage_key (stringify_array newList)
          (setConfusingWords newList s)
      else s
  end.

Definition removeFromConfusing (s : State) : State :=
  let newList := JS.filter_index_ne (confusingWords s) 0 (currentIndex s) in
  let s1 := setItem storage_key (stringify_array newList)
              (setConfusingWords newList s) in
  let s2 :=
    if (currentIndex s >=? JS.len newList) && (JS.len newList >? 0)
    then setCurrentIndex (JS.len newList - 1) s1
    else s1 in
  setIsFlipped false s2.

(** [changeDay] (lines 174-180) *)
Definition changeDay (day : Z) (s : State) : State :=
  setHiddenAnswers ∅ (setShowConfusing false (setIsFlipped false
    (setCurrentIndex 0 (setCurrentDay day s)))).

Definition toggleConfusingMode (s : State) : State :=
  setHiddenAnswers ∅ (setIsFlipped false (setCurrentIndex 0
    (setShowConfusing (negb (showConfusing s)) s))).

Definition toggleDirection (s : State) : State :=
  setMode (toggle_direction (mode s)) s.

Definition toggleViewMode (s : State) : State :=
  setViewMode (toggle_view (viewMode s)) s.

(** Requests to advance, as the prev/next buttons issue them. *)
Inductive Advance := Next | Prev.

Definition requestAdvance (d : Advance) (s : State) : State :=
  match d with Next => nextWord s | Prev => prevWord s end.

End Gated.

(** ** src/unnamed/part_000: the first revision

    No list view and no animation gate: the prev and next buttons move
    the position at once. *)
Module Simple.
Import JSON.

Record State := mkState {
  words : list WordRecord;
  currentDay : Z;
  currentIndex : Z;
  isFlipped : bool;
  mode : Direction;
  confusingWords : list WordRecord;
  showConfusing : bool;
  totalDays : Z;
  isLoading : bool;
  error : string;
  localStorage : gmap string string
}.

Definition setCurrentDay v s :=
  mkState (words s) v (currentIndex s) (isFlipped s) (mode s)
    (confusingWords s) (showConfusing s) (totalDays s) (isLoading s)
    (error s) (localStorage s).
Definition setCurrentIndex v s :=
  mkState (words s) (currentDay s) v (isFlipped s) (mode s)
    (confusingWords s) (showConfusing s) (totalDays s) (isLoading s)
    (error s) (localStorage s).
Definition setIsFlipped v s :=
  mkState (words s) (currentDay s) (currentIndex s) v (mode s)
    (confusingWords s) (showConfusing s) (totalDays s) (isLoading s)
    (error s) (localStorage s).
Definition setMode v s :=
  mkState (words s) (currentDay s) (currentIndex s) (isFlipped s) v
    (confusingWords s) (showConfusing s) (totalDays s) (isLoading s)
    (error s) (localStorage s).
Definition setConfusingWords v s :=
  mkState (words s) (currentDay s) (currentIndex s) (isFlipped s) (mode s)
    v (showConfusing s) (totalDays s) (isLoading s)
    (error s) (localStorage s).
Definition setShowConfusing v s :=
  mkState (words s) (currentDay s) (currentIndex s) (isFlipped s) (mode s)
    (confusingWords s) v (totalDays s) (isLoading s)
    (error s) (localStorage s).
Definition setItem (k v : string) s :=
  mkState (words s) (currentDay s) (currentIndex s) (isFlipped s) (mode s)
    (confusingWords s) (showConfusing s) (totalDays s) (isLoading s)
    (error s) (<[k := v]> (localStorage s)).

(** [getCurrentWords] (lines 81-87) *)
Definition getCurrentWords (s : State) : list WordRecord :=
  if showConfusing s then confusingWords s
  else
    let startIndex := (currentDay s - 1) * 100 in
    let endIndex := startIndex + 100 in
    JS.slice (words s) startIndex endIndex.

Definition currentWord (s : State) : option WordRecord :=
  JS.get (getCurrentWords s) (currentIndex s).

(** [flipCard] (lines 106-108) *)
Definition flipCard (s : State) : State :=
  setIsFlipped (negb (isFlipped s)) s.

(** [nextWord] (lines 111-116) *)
Definition nextWord (s : State) : State :=
  if currentIndex s <? JS.len (getCurrentWords s) - 1
  then setIsFlipped false (setCurrentIndex (currentIndex s + 1) s)
  else s.

(** [prevWord] (lines 119-124) *)
Definition prevWord (s : State) : State :=
  if currentIndex s >? 0
  then setIsFlipped false (setCurrentIndex (currentIndex s - 1) s)
  else s.

(** [addToConfusing] (lines 127-139) *)
Definition addToConfusing (s : State) : State :=
  match currentWord s with
  | None => s
  | Some w =>
      let isAlreadyAdded :=
        existsb (fun w' => String.eqb (stringify w') (stringify w))
          (confusingWords s) in
      if negb isAlreadyAdded then
        let newConfusingWords := confusingWords s ++ [w] in
        setItem storage_key (stringify_array newConfusingWords)
          (setConfusingWords newConfusingWords s)
      else s
  end.

(** [removeFromConfusing] (lines 142-151) *)
Definition removeFromConfusing (s : State) : State :=
  let newConfusingWords :=
    JS.filter_index_ne (confusingWords s) 0 (currentIndex s) in
  let s1 := setItem storage_key (stringify_array newConfusingWords)
              (setConfusingWords newConfusingWords s) in
  let s2 :=
    if (currentIndex s >=? JS.len newConfusingWords)
       && (JS.len newConfusingWords >? 0)
    then setCurrentIndex (JS.len newConfusingWords - 1) s1
    else s1 in
  setIsFlipped false s2.

(** [changeDay] (lines 154-159) *)
Definition changeDay (day : Z) (s : State) : State :=
  setShowConfusing false (setIsFlipped false
    (setCurrentIndex 0 (setCurrentDay day s))).

(** [toggleConfusingMode] (lines 162-166) *)
Definition toggleConfusingMode (s : State) : State :=
  setIsFlipped false (setCurrentIndex 0
    (setShowConfusing (negb (showConfusing s)) s)).

(** The direction button (line 227). *)
Definition toggleDirection (s : State) : State :=
  setMode (toggle_direction (mode s)) s.

End Simple.

(** ** The controls the two revisions share

    One press of a control of the card view, as the [onClick] and
    [onChange] attributes bind them in both revisions. *)
Inductive Control :=
| PressNext
| PressPrev
| PressFlip
| PressAdd
| PressRemove
| SelectDay (day : Z)
| PressConfusing
| PressDirection.

Definition simple_press (p : Control) (s : Simple.State) : Simple.State :=
  match p with
  | PressNext => Simple.nextWord s
  | PressPrev => Simple.prevWord s
  | PressFlip => Simple.flipCard s
  | PressAdd => Simple.addToConfusing s
  | PressRemove => Simple.removeFromConfusing s
  | SelectDay day => Simple.changeDay day s
  | PressConfusing => Simple.toggleConfusingMode s
  | PressDirection => Simple.toggleDirection s
  end.

Definition gated_press (p : Control) (s : Gated.State) : Gated.State :=
  match p with
  | PressNext => Gated.nextWord s
  | PressPrev => Gated.prevWord s
  | PressFlip => Gated.flipCard s
  | PressAdd => Gated.addToConfusing s
  | PressRemove => Gated.removeFromConfusing s
  | SelectDay day => Gated.changeDay day s
  | PressConfusing => Gated.toggleConfusingMode s
  | PressDirection => Gated.toggleDirection s
  end.

(** A press in the gated revision, followed by the end of the card's
    animation. *)
Definition gated_press_settled (p : Control) (s : Gated.State)
    : Gated.State :=
  Gated.handleTransitionEnd (gated_press p s).

(** The part of a gated state that the first revision has as well. *)
Definition first_revision_view (s : Gated.State) : Simple.State :=
  Simple.mkState (Gated.words s) (Gated.currentDay s) (Gated.currentIndex s)
    (Gated.isFlipped s) (Gated.mode s) (Gated.confusingWords s)
    (Gated.showConfusing s) (Gated.totalDays s) (Gated.isLoading s)
    (Gated.error s) (Gated.localStorage s).

(** What happens to the card of the gated revision: a press of a
    control, or the end of the flip animation. *)
Inductive CardEvent :=
| Press (p : Control)
| TransitionEnd.

Definition gated_event (e : CardEvent) (s : Gated.State) : Gated.State :=
  match e with
  | Press p => gated_press p s
  | TransitionEnd => Gated.handleTransitionEnd s
  end.

(** The events that only browse: moving, flipping, switching the
    direction, and the animation ending. *)
Definition browses (e : CardEvent) : bool :=
  match e with
  | Press (PressNext | PressPrev | PressFlip | PressDirection)
  | TransitionEnd => true
  | Press _ => false
  end.

(** The position, and the pending index if any, designate words of
    the active set. *)
Definition gated_in_range (s : Gated.State) : Prop :=
  0 <= Gated.currentIndex s < JS.len (Gated.getCurrentWords s)
  /\ forall q, Gated.pendingIndex s = Some q ->
       0 <= q < JS.len (Gated.getCurrentWords s).

(** ** Sample data *)

Definition sample_record (i : nat) : JSON.WordRecord :=
  [("korean", JSON.CStr "dan-eo"); ("english", JSON.CStr "word");
   ("no", JSON.CNum (Z.of_nat i))].

Definition sample_corpus (n : nat) : list JSON.WordRecord :=
  sample_record <$> seq 0 n.

Definition sample_rng : Rng := mkRng (fun k => (7 * k + 3)%nat) 0.

(** A session that has loaded a corpus of [n] records. *)
Definition sample_app (n : nat) : App.Component :=
  App.step (App.CsvLoaded (sample_corpus n)) (App.mount [] sample_rng ∅).

(** Day [-1] on a corpus of 250 records, in either revision. *)
Definition negative_day_app : App.State :=
  App.setCurrentDay (-1) (App.state (sample_app 250)).

Definition negative_day_gated : Gated.State :=
  Gated.mkState (sample_corpus 250) (-1) 0 false KoToEn [] false 3 false ""
    Card ∅ None ∅.

(** A gated session on a corpus of [n] records, settled at position
    [i]. *)
Definition sample_gated (n : nat) (i : Z) : Gated.State :=
  Gated.mkState (sample_corpus n) 1 i false KoToEn [] false
    (dayCount (sample_corpus n)) false "" Card ∅ None ∅.

(** * Part II: facts about the model *)

Section SliceFacts.
Context {A : Type}.
Implicit Types (l : list A) (d : Z).

Lemma ceil_div_spec n : 0 <= n ->
  100 * (JS.ceil_div n 100 - 1) < n <= 100 * JS.ceil_div n 100.
Proof.
  intros Hn. unfold JS.ceil_div.
  pose proof (Z.div_mod n 100 ltac:(lia)) as Hdm.
  pose proof (Z.mod_pos_bound n 100 ltac:(lia)) as Hb.
  destruct (Z.eqb_spec (n mod 100) 0); lia.
Qed.

Lemma dayCount_spec l :
  100 * (dayCount l - 1) < JS.len l <= 100 * dayCount l.
Proof. apply ceil_div_spec. unfold JS.len. lia. Qed.

Lemma dayCount_nonneg l : 0 <= dayCount l.
Proof. pose proof (dayCount_spec l). unfold JS.len in *. lia. Qed.

Lemma slice_nonneg l (s e : Z) :
  0 <= s -> 0 <= e ->
  JS.slice l s e = take (Z.to_nat (e - s)) (drop (Z.to_nat s) l).
Proof.
  intros Hs He. unfold JS.slice, JS.rel_index.
  destruct (Z.ltb_spec s 0); [lia|].
  destruct (Z.ltb_spec e 0); [lia|].
  set (n := Z.of_nat (length l)).
  destruct (Z.le_gt_cases s n) as [Hsn|Hsn].
  - rewrite (Z.min_l s n) by lia.
    destruct (Z.le_gt_cases e n) as [Hen|Hen].
    + by rewrite (Z.min_l e n) by lia.
    + rewrite (Z.min_r e n) by lia.
      rewrite !take_ge; [done| |]; rewrite length_drop; lia.
  - rewrite (Z.min_r s n) by lia.
    rewrite !drop_ge by lia. by rewrite !take_nil.
Qed.

Lemma daySlice_in_range l d :
  1 <= d ->
  daySlice l d = take 100 (drop (100 * Z.to_nat (d - 1)) l).
Proof.
  intros Hd. unfold daySlice. rewrite slice_nonneg by lia.
  f_equal; [|f_equal]; lia.
Qed.

Lemma daySlice_length_le l d : (length (daySlice l d) <= 100)%nat.
Proof.
  unfold daySlice, JS.slice. rewrite length_take.
  set (n := Z.of_nat (length l)).
  unfold JS.rel_index.
  destruct (Z.ltb_spec ((d - 1) * 100) 0), (Z.ltb_spec ((d - 1) * 100 + 100) 0);
    lia.
Qed.

(** Chunks of 100 taken in order rebuild the list. *)
Lemma chunks_concat (k : nat) l :
  (length l <= 100 * k)%nat ->
  concat ((fun i : nat => take 100 (drop (100 * i) l)) <$> seq 0 k) = l.
Proof.
  revert l. induction k as [|k IH]; intros l Hl.
  - destruct l; [done|simpl in Hl; lia].
  - rewrite <- cons_seq, <- fmap_S_seq. cbn [fmap list_fmap concat].
    rewrite <- list_fmap_compose.
    etrans; [|apply (take_drop 100 l)]. f_equal.
    etrans; [|apply (IH (drop 100 l)); rewrite length_drop; lia].
    f_equal. apply list_fmap_ext. intros _ i _. simpl.
    rewrite drop_drop. do 2 f_equal. lia.
Qed.

Lemma daySlices_concat l :
  concat (daySlice l <$> seqZ 1 (dayCount l)) = l.
Proof.
  pose proof (dayCount_spec l) as Hdc. pose proof (dayCount_nonneg l) as H0.
  unfold JS.len in Hdc.
  etrans; [|apply (chunks_concat (Z.to_nat (dayCount l)) l); lia].
  unfold seqZ. rewrite <- list_fmap_compose. f_equal.
  apply list_fmap_ext. intros _ i _. simpl.
  rewrite daySlice_in_range by lia. do 3 f_equal. lia.
Qed.

Lemma daySlice_nonempty_in_range l d :
  1 <= d <= dayCount l -> daySlice l d <> [].
Proof.
  intros Hd. pose proof (dayCount_spec l) as Hdc. unfold JS.len in Hdc.
  rewrite daySlice_in_range by lia. intros Hnil.
  apply (f_equal length) in Hnil.
  rewrite length_take, length_drop in Hnil. cbn [length] in Hnil. lia.
Qed.

(** For which days outside [1, dayCount] the slice is empty: a negative
    bound of [slice] counts from the end of the array. *)
Lemma daySlice_out_of_range l d :
  d < 1 \/ dayCount l < d ->
  (daySlice l d = [] <-> d = 0 \/ dayCount l < d \/ JS.len l <= -100 * d).
Proof.
  intros Hout. pose proof (dayCount_spec l) as Hdc.
  unfold JS.len in *. set (n := Z.of_nat (length l)) in *.
  assert (Hlen : length (daySlice l d)
    = Nat.min
        (Z.to_nat (JS.rel_index n ((d - 1) * 100 + 100)
                   - JS.rel_index n ((d - 1) * 100)))
        (length l - Z.to_nat (JS.rel_index n ((d - 1) * 100)))%nat).
  { unfold daySlice, JS.slice. by rewrite length_take, length_drop. }
  rewrite <- length_zero_iff_nil, Hlen. clear Hlen. unfold JS.rel_index.
  set (st := (d - 1) * 100) in *.
  assert (Hst : st = 100 * d - 100) by (unfold st; lia). clearbody st.
  assert (Hn : n = Z.of_nat (length l)) by done. clearbody n.
  destruct (Z.lt_trichotomy d 0) as [Hd|[Hd|Hd]].
  - rewrite (proj2 (Z.ltb_lt st 0)), (proj2 (Z.ltb_lt (st + 100) 0)) by lia.
    destruct (Z.le_gt_cases (n + st) 0), (Z.le_gt_cases (n + (st + 100)) 0);
      lia.
  - rewrite (proj2 (Z.ltb_lt st 0)), (proj2 (Z.ltb_ge (st + 100) 0)) by lia.
    destruct (Z.le_gt_cases (n + st) 0); lia.
  - rewrite (proj2 (Z.ltb_ge st 0)), (proj2 (Z.ltb_ge (st + 100) 0)) by lia.
    rewrite (Z.min_r st n), (Z.min_r (st + 100) n) by lia. lia.
Qed.

End SliceFacts.

Section JSONFacts.
Import JSON.

Lemma string_app_nil (b : string) : "" +:+ b = b.
Proof. reflexivity. Qed.

Lemma string_app_cons x (a b : string) :
  String x a +:+ b = String x (a +:+ b).
Proof. reflexivity. Qed.

Lemma string_app_assoc (a b c : string) : (a +:+ b) +:+ c = a +:+ (b +:+ c).
Proof.
  induction a as [|x a IH]; [done|].
  by rewrite !string_app_cons, IH.
Qed.

Lemma unescape_escape_char c r :
  unescape_head (escape_char c +:+ r) = Some (c, r).
Proof. by destruct c as [[] [] [] [] [] [] [] []]. Qed.

Lemma escape_inj s1 : forall s2 r1 r2,
  escape s1 +:+ String dquote r1 = escape s2 +:+ String dquote r2 ->
  s1 = s2 /\ r1 = r2.
Proof.
  induction s1 as [|c1 s1 IH]; intros [|c2 s2] r1 r2 H; cbn [escape] in H;
    rewrite ?string_app_nil, ?string_app_assoc in H.
  - by injection H.
  - apply (f_equal unescape_head) in H.
    rewrite unescape_escape_char in H. discriminate.
  - apply (f_equal unescape_head) in H.
    rewrite unescape_escape_char in H. discriminate.
  - apply (f_equal unescape_head) in H.
    rewrite !unescape_escape_char in H.
    injection H as -> H. by destruct (IH _ _ _ H) as [-> ->].
Qed.

Lemma quote_inj s1 s2 r1 r2 :
  quote s1 +:+ r1 = quote s2 +:+ r2 -> s1 = s2 /\ r1 = r2.
Proof.
  unfold quote. rewrite !string_app_cons, !string_app_assoc, !string_app_cons.
  intros H. injection H as H. by apply escape_inj.
Qed.

Lemma uint_text_inj u1 : forall u2 r1 r2,
  delimited r1 -> delimited r2 ->
  uint_text u1 +:+ r1 = uint_text u2 +:+ r2 -> u1 = u2 /\ r1 = r2.
Proof.
  induction u1 as [|u1 IH|u1 IH|u1 IH|u1 IH|u1 IH|u1 IH|u1 IH|u1 IH|u1 IH|u1 IH];
    intros [|u2|u2|u2|u2|u2|u2|u2|u2|u2|u2] r1 r2 Hd1 Hd2 H; (cbn [uint_text int_text] in H; rewrite ?string_app_cons, ?string_app_nil in H);
    try done; try (subst; by cbn in * );
    try (injection H as H; by destruct (IH _ _ _ Hd1 Hd2 H) as [-> ->]).
Qed.

Lemma int_text_inj d1 d2 r1 r2 :
  delimited r1 -> delimited r2 ->
  int_text d1 +:+ r1 = int_text d2 +:+ r2 -> d1 = d2 /\ r1 = r2.
Proof.
  intros Hd1 Hd2 H. destruct d1 as [u1|u1], d2 as [u2|u2]; (cbn [uint_text int_text] in H; rewrite ?string_app_cons, ?string_app_nil in H).
  - by destruct (uint_text_inj _ _ _ _ Hd1 Hd2 H) as [-> ->].
  - destruct u1; (cbn [uint_text int_text] in H; rewrite ?string_app_cons, ?string_app_nil in H); try done. subst. by cbn in *.
  - destruct u2; (cbn [uint_text int_text] in H; rewrite ?string_app_cons, ?string_app_nil in H); try done. subst. by cbn in *.
  - injection H as H. by destruct (uint_text_inj _ _ _ _ Hd1 Hd2 H) as [-> ->].
Qed.

Lemma number_text_inj n1 n2 r1 r2 :
  delimited r1 -> delimited r2 ->
  number_text n1 +:+ r1 = number_text n2 +:+ r2 -> n1 = n2 /\ r1 = r2.
Proof.
  intros Hd1 Hd2 H. unfold number_text in H.
  destruct (int_text_inj _ _ _ _ Hd1 Hd2 H) as [Hn ->]. split; [|done].
  by rewrite <- (DecimalZ.of_to n1), <- (DecimalZ.of_to n2), Hn.
Qed.

Lemma cell_head_class c r :
  delimited r -> head_class (cell_text c +:+ r) = cell_class c.
Proof.
  intros Hd. destruct c as [|[]|n|s]; try done.
  cbn [cell_text cell_class]. unfold number_text.
  destruct (Z.to_int n) as [[]|u]; cbn [int_text uint_text];
    rewrite ?string_app_cons, ?string_app_nil; try done.
  destruct r as [|c r]; [done|]. cbn in Hd. cbn [head_class].
  destruct (Ascii.eqb_spec c ","); [by subst|].
  destruct (Ascii.eqb_spec c "}"); by subst.
Qed.

Lemma cell_text_inj c1 c2 r1 r2 :
  delimited r1 -> delimited r2 ->
  cell_text c1 +:+ r1 = cell_text c2 +:+ r2 -> c1 = c2 /\ r1 = r2.
Proof.
  intros Hd1 Hd2 H.
  pose proof (f_equal head_class H) as Hc.
  rewrite !cell_head_class in Hc by done.
  destruct c1 as [|[]|n1|s1], c2 as [|[]|n2|s2]; try discriminate Hc;
    cbn [cell_text] in H.
  - split; [done|]. by apply (inj (String.app "null")).
  - split; [done|]. by apply (inj (String.app "true")).
  - split; [done|]. by apply (inj (String.app "false")).
  - by destruct (number_text_inj _ _ _ _ Hd1 Hd2 H) as [-> ->].
  - by destruct (quote_inj _ _ _ _ H) as [-> ->].
Qed.

Lemma member_text_inj kv1 kv2 r1 r2 :
  delimited r1 -> delimited r2 ->
  member_text kv1 +:+ r1 = member_text kv2 +:+ r2 -> kv1 = kv2 /\ r1 = r2.
Proof.
  intros Hd1 Hd2 H. destruct kv1 as [k1 c1], kv2 as [k2 c2].
  unfold member_text in H. cbn [fst snd] in H.
  rewrite !string_app_assoc in H.
  apply quote_inj in H as [-> H]. rewrite !string_app_cons in H.
  injection H as H. by destruct (cell_text_inj _ _ _ _ Hd1 Hd2 H) as [-> ->].
Qed.

Lemma members_text_cons kv rest r :
  members_text (kv :: rest) +:+ String "}" r
  = member_text kv +:+ members_tail rest r.
Proof.
  destruct rest as [|kv' rest]; [done|].
  cbn [members_text members_tail].
  by rewrite string_app_assoc, string_app_cons.
Qed.

Lemma members_tail_delimited rest r : delimited (members_tail rest r).
Proof. by destruct rest. Qed.

Lemma members_text_inj l1 : forall l2 r1 r2,
  members_text l1 +:+ String "}" r1 = members_text l2 +:+ String "}" r2 ->
  l1 = l2 /\ r1 = r2.
Proof.
  induction l1 as [|kv1 l1 IH]; intros [|kv2 l2] r1 r2 H.
  - cbn [members_text] in H. rewrite !string_app_nil in H. by injection H.
  - rewrite members_text_cons in H. unfold member_text, quote in H.
    cbn [members_text] in H.
    rewrite ?string_app_nil, ?string_app_cons in H. discriminate H.
  - rewrite members_text_cons in H. unfold member_text, quote in H.
    cbn [members_text] in H.
    rewrite ?string_app_nil, ?string_app_cons in H. discriminate H.
  - rewrite !members_text_cons in H.
    apply member_text_inj in H as [-> H]; [|apply members_tail_delimited..].
    destruct l1 as [|a l1], l2 as [|b l2]; cbn [members_tail] in H;
      try discriminate H.
    + injection H as ->. done.
    + injection H as H. by destruct (IH (b :: l2) r1 r2 H) as [-> ->].
Qed.

(** [JSON.stringify] separates records exactly as structural equality
    does: equal texts come from equal records only. *)
Lemma stringify_inj r1 r2 : stringify r1 = stringify r2 -> r1 = r2.
Proof.
  unfold stringify. intros H. injection H as H.
  by destruct (members_text_inj _ _ _ _ H).
Qed.

(** Records are ordered mappings: the order of the keys is part of the
    record and of its text. *)
Example stringify_key_order :
  stringify [("a", CNum 1); ("b", CNum 2)]
  <> stringify [("b", CNum 2); ("a", CNum 1)].
Proof. by vm_compute. Qed.

Lemma stringify_eqb r1 r2 :
  String.eqb (stringify r1) (stringify r2) = bool_decide (r1 = r2).
Proof.
  case_bool_decide as Heq.
  - subst. apply String.eqb_refl.
  - apply String.eqb_neq. intros H. by apply Heq, stringify_inj.
Qed.

End JSONFacts.

Section ShuffleFacts.
Local Open Scope nat_scope.
Context {A : Type}.
Implicit Types (a arr : list A) (i j k : nat) (g : Rng).
Local Abbreviation Heap := (list (list A)).

Lemma swap_length a i j : length (swap a i j) = length a.
Proof.
  unfold swap. destruct (a !! j), (a !! i); by rewrite ?length_insert.
Qed.

Lemma swap_lookup a i j k :
  i < length a -> j < length a ->
  swap a i j !! k =
    a !! (if decide (k = j) then i else if decide (k = i) then j else k).
Proof.
  intros Hi Hj. unfold swap.
  destruct (lookup_lt_is_Some_2 a i Hi) as [x Hx].
  destruct (lookup_lt_is_Some_2 a j Hj) as [y Hy]. rewrite Hx, Hy.
  destruct (decide (k = j)) as [->|Hkj].
  - by rewrite list_lookup_insert_eq by (rewrite length_insert; lia).
  - rewrite list_lookup_insert_ne by done.
    destruct (decide (k = i)) as [->|Hki].
    + by rewrite list_lookup_insert_eq by lia.
    + by rewrite list_lookup_insert_ne.
Qed.

Lemma swap_perm a i j : swap a i j ≡ₚ a.
Proof.
  destruct (decide (i < length a ∧ j < length a)) as [[Hi Hj]|Hn].
  - apply Permutation_inj. split; [apply swap_length|].
    exists (fun k => if decide (k = j) then i
                     else if decide (k = i) then j else k).
    split; [|intros k; by apply swap_lookup].
    intros k1 k2. repeat case_decide; lia.
  - unfold swap.
    destruct (a !! j) eqn:Ej; [|done]. destruct (a !! i) eqn:Ei; [|done].
    apply lookup_lt_Some in Ej, Ei. lia.
Qed.

Lemma shuffle_loop_perm i a g : (shuffle_loop i a g).1 ≡ₚ a.
Proof.
  revert a g. induction i as [|i IH]; intros a g; [done|].
  cbn [shuffle_loop]. destruct (random_below (S i + 1) g) as [j g'].
  rewrite IH. apply swap_perm.
Qed.

Lemma shuffleArray_perm arr g : (shuffleArray arr g).1 ≡ₚ arr.
Proof. apply shuffle_loop_perm. Qed.

Lemma shuffleArray_length arr g : length (shuffleArray arr g).1 = length arr.
Proof. apply Permutation_length, shuffleArray_perm. Qed.

(** The loop on the store computes what the loop on values does, and
    writes nowhere else. *)
Lemma shuffle_loop_heap_spec i : forall (r : nat) (h : Heap) a g,
  h !! r = Some a ->
  shuffle_loop_heap i r h g
  = (<[r := (shuffle_loop i a g).1]> h, (shuffle_loop i a g).2).
Proof.
  induction i as [|i IH]; intros r h a g Hr.
  - cbn [shuffle_loop_heap shuffle_loop fst snd]. by rewrite list_insert_id.
  - cbn [shuffle_loop_heap shuffle_loop].
    destruct (random_below (S i + 1) g) as [j g'].
    rewrite (IH r (heap_swap h r (S i) j) (swap a (S i) j) g').
    + unfold heap_swap. f_equal. apply list_eq. intros k.
      destruct (decide (k = r)) as [->|Hk].
      * pose proof (lookup_lt_Some _ _ _ Hr) as Hlt.
        by rewrite !list_lookup_insert_eq by (rewrite ?length_alter; lia).
      * rewrite !list_lookup_insert_ne by done.
        apply list_lookup_alter_ne. lia.
    + unfold heap_swap. by rewrite list_lookup_alter_eq, Hr.
Qed.

Lemma shuffleArray_heap_spec (arr : nat) (h : Heap) g :
  shuffleArray_heap arr h g
  = (length h,
     h ++ [(shuffleArray (heap_read h arr) g).1],
     (shuffleArray (heap_read h arr) g).2).
Proof.
  unfold shuffleArray_heap, heap_alloc.
  assert (Hnew : (h ++ [heap_read h arr]) !! length h = Some (heap_read h arr)).
  { by rewrite lookup_app_r, Nat.sub_diag by lia. }
  assert (Hrd : heap_read (h ++ [heap_read h arr]) (length h) = heap_read h arr).
  { unfold heap_read at 1. by rewrite Hnew. }
  rewrite Hrd, (shuffle_loop_heap_spec _ _ _ _ _ Hnew).
  unfold shuffleArray. do 2 f_equal.
  rewrite insert_app_r_alt, Nat.sub_diag by lia. done.
Qed.

Lemma swap_out_of_range a i j :
  ~ (i < length a /\ j < length a) -> swap a i j = a.
Proof.
  intros Hn. unfold swap.
  destruct (a !! j) eqn:Ej; [|done]. destruct (a !! i) eqn:Ei; [|done].
  apply lookup_lt_Some in Ej, Ei. lia.
Qed.

End ShuffleFacts.

(** *** Counting the outcomes of the shuffle *)

Section CountingTools.
Local Open Scope nat_scope.
Context {A : Type}.

Lemma sum_list_with_ext {B} (f1 f2 : B -> nat) (l : list B) :
  (forall y, y ∈ l -> f1 y = f2 y) -> sum_list_with f1 l = sum_list_with f2 l.
Proof.
  induction l as [|y l IH]; intros H; [done|]. cbn.
  rewrite (H y) by left. rewrite IH; [done|]. intros z Hz. apply H. by right.
Qed.

Lemma sum_list_with_const {B} (c : nat) (l : list B) :
  sum_list_with (fun _ => c) l = length l * c.
Proof. induction l as [|y l IH]; cbn; [done|]. rewrite IH. lia. Qed.

Lemma length_bind {B C} (f : B -> list C) (l : list B) :
  length (l ≫= f) = sum_list_with (fun y => length (f y)) l.
Proof.
  induction l as [|y l IH]; [done|].
  rewrite bind_cons, length_app, IH. done.
Qed.

Lemma count_bind {B C} (P : C -> Prop) `{!forall c, Decision (P c)}
    (f : B -> list C) (l : list B) :
  length (filter P (l ≫= f))
  = sum_list_with (fun y => length (filter P (f y))) l.
Proof.
  induction l as [|y l IH]; [done|].
  rewrite bind_cons, filter_app, length_app, IH. done.
Qed.

Lemma count_fmap {B C} (P : C -> Prop) `{!forall c, Decision (P c)}
    (f : B -> C) (l : list B) :
  length (filter P (f <$> l)) = length (filter (fun y => P (f y)) l).
Proof.
  induction l as [|y l IH]; [done|]. cbn [fmap list_fmap].
  rewrite !filter_cons. fold (fmap f l).
  destruct (decide (P (f y))); cbn [length]; by rewrite IH.
Qed.

Lemma count_const {B} (Q : Prop) `{!Decision Q} (l : list B) :
  length (filter (fun _ => Q) l) = if decide Q then length l else 0.
Proof.
  induction l as [|y l IH]; [by destruct (decide Q)|].
  rewrite filter_cons. destruct (decide Q); cbn [length]; by rewrite IH.
Qed.

Lemma count_ext {B} (P1 P2 : B -> Prop)
    `{!forall c, Decision (P1 c)} `{!forall c, Decision (P2 c)} (l : list B) :
  (forall y, P1 y <-> P2 y) ->
  length (filter P1 l) = length (filter P2 l).
Proof. intros Hiff. f_equal. by apply list_filter_iff. Qed.

(** A sum over the first [n] indices of a list is a sum over its first
    [n] elements. *)
Lemma sum_indices_elements (F : option A -> nat) (a : list A) (n : nat) :
  n <= length a ->
  sum_list_with (fun j => F (a !! j)) (seq 0 n)
  = sum_list_with (fun y => F (Some y)) (take n a).
Proof.
  induction n as [|n IH]; intros Hn; [done|].
  destruct (lookup_lt_is_Some_2 a n ltac:(lia)) as [y Hy].
  rewrite seq_S, (take_S_r _ _ _ Hy), !sum_list_with_app, IH by lia.
  cbn. by rewrite Hy.
Qed.

Context `{!EqDecision A}.

(** In a list without duplicates one element at most is [x]. *)
Lemma sum_indicator (x : A) (c1 c2 : nat) (l : list A) :
  NoDup l ->
  sum_list_with (fun y => if decide (y = x) then c1 else c2) l
  = if decide (x ∈ l) then c1 + (length l - 1) * c2 else length l * c2.
Proof.
  induction 1 as [|y l Hy Hl IH]; [done|]. cbn [sum_list_with length].
  rewrite IH.
  assert (Hlen : x ∈ l -> 0 < length l).
  { destruct l; [by intros ?%elem_of_nil|cbn; lia]. }
  destruct (decide (y = x)) as [Heq|Hne].
  - subst y. destruct (decide (x ∈ l)) as [|_]; [done|].
    destruct (decide (x ∈ x :: l)) as [_|Hn]; [lia|]. exfalso. set_solver.
  - destruct (decide (x ∈ l)) as [Hin|Hnin].
    + specialize (Hlen Hin).
      destruct (decide (x ∈ y :: l)) as [_|Hn]; [|exfalso; set_solver].
      destruct (length l) as [|n]; [lia|]. cbn [Nat.sub]. lia.
    + destruct (decide (x ∈ y :: l)) as [Hin'|_]; [|lia].
      apply elem_of_cons in Hin' as [?|?]; congruence.
Qed.

End CountingTools.

Section ShuffleCount.
Local Open Scope nat_scope.
Context {A : Type} `{!EqDecision A}.
Implicit Types (a arr : list A) (i j k p : nat) (g : Rng) (x : A).

Lemma shuffle_loop_steps i : forall a g,
  (shuffle_loop i a g).1
  = shuffle_steps i a (outcomes g <$> seq (consumed g) i).
Proof.
  induction i as [|i IH]; intros a g; [done|].
  cbn [shuffle_loop shuffle_steps random_below seq fmap list_fmap hd tl].
  by rewrite IH.
Qed.

Lemma rng_of_outcomes (cs : list nat) :
  outcomes (rng_of cs) <$> seq 0 (length cs) = cs.
Proof.
  cbn [rng_of outcomes]. induction cs as [|c cs IH]; [done|].
  cbn [length seq fmap list_fmap nth]. f_equal.
  rewrite <- fmap_S_seq, <- list_fmap_compose. exact IH.
Qed.

Lemma choices_length i : length (choices i) = fact (S i).
Proof.
  induction i as [|i IH]; [done|].
  cbn [choices]. rewrite length_bind.
  rewrite (sum_list_with_ext _ (fun _ => fact (S i))).
  - rewrite sum_list_with_const, length_seq. done.
  - intros j _. by rewrite length_fmap.
Qed.

Lemma choices_elem_length i cs : cs ∈ choices i -> length cs = i.
Proof.
  revert cs. induction i as [|i IH]; intros cs Hcs.
  - apply list_elem_of_singleton in Hcs. by subst.
  - cbn [choices] in Hcs. apply list_elem_of_bind in Hcs as (j & Hcs & _).
    apply list_elem_of_fmap in Hcs as (cs' & -> & Hcs').
    cbn. f_equal. by apply IH.
Qed.

Lemma swap_lookup_ne a i j k : k <> i -> k <> j -> swap a i j !! k = a !! k.
Proof.
  intros Hi Hj. unfold swap. destruct (a !! j), (a !! i); try done.
  by rewrite !list_lookup_insert_ne.
Qed.

(** Positions above the loop index are left as they are. *)
Lemma shuffle_steps_frame i : forall a cs p,
  i < p -> shuffle_steps i a cs !! p = a !! p.
Proof.
  induction i as [|i IH]; intros a cs p Hp; [done|].
  cbn [shuffle_steps]. rewrite IH by lia.
  apply swap_lookup_ne; [lia|].
  pose proof (Nat.mod_upper_bound (hd 0 cs) (S i + 1)). lia.
Qed.

Lemma shuffle_steps_length i : forall a cs,
  length (shuffle_steps i a cs) = length a.
Proof.
  induction i as [|i IH]; intros a cs; [done|].
  cbn [shuffle_steps]. by rewrite IH, swap_length.
Qed.

Lemma take_swap a i j n :
  i < n -> j < n -> take n (swap a i j) = swap (take n a) i j.
Proof.
  intros Hi Hj. unfold swap. rewrite !lookup_take_lt by done.
  destruct (a !! j), (a !! i); try done.
  by rewrite !take_insert_lt.
Qed.

(** After the swap at [i] with [j], the first [i] cells hold the first
    [i + 1] cells of before but [a[j]]. *)
Lemma swap_prefix a i j x :
  i < length a -> j <= i -> NoDup (take (S i) a) ->
  NoDup (take i (swap a i j)) /\
  (x ∈ take i (swap a i j) <-> x ∈ take (S i) a /\ a !! j <> Some x).
Proof.
  intros Hi Hj Hnd.
  destruct (lookup_lt_is_Some_2 a j ltac:(lia)) as [y Hy].
  assert (Hbi : swap a i j !! i = Some y).
  { rewrite swap_lookup by lia. repeat case_decide; by subst. }
  assert (Hperm : take i (swap a i j) ++ [y] ≡ₚ take (S i) a).
  { rewrite <- (take_S_r _ _ _ Hbi), take_swap by lia. apply swap_perm. }
  rewrite <- Hperm in Hnd. apply NoDup_app in Hnd as (Hnd & Hfresh & _).
  split; [done|]. rewrite <- Hperm, elem_of_app, list_elem_of_singleton.
  rewrite Hy. split.
  - intros Hx. split; [by left|]. intros [= ->].
    apply (Hfresh _ Hx). by apply list_elem_of_singleton.
  - intros [[Hx| ->] Hne]; [done|congruence].
Qed.

(** The number of choice sequences that bring [x] to position [p]. *)
Lemma count_steps i : forall a p x,
  i < length a -> NoDup (take (S i) a) -> p <= i ->
  length (filter (fun cs => shuffle_steps i a cs !! p = Some x) (choices i))
  = if decide (x ∈ take (S i) a) then fact i else 0.
Proof.
  induction i as [|i IH]; intros a p x Hi Hnd Hp.
  - assert (p = 0) as -> by lia. destruct a as [|y a]; [cbn in Hi; lia|].
    cbn [choices shuffle_steps take]. rewrite filter_cons, filter_nil.
    cbn [lookup list_lookup].
    destruct (decide (Some y = Some x)) as [[= ->]|Hne].
    + rewrite decide_True; [done|]. by apply list_elem_of_singleton.
    + rewrite decide_False; [done|].
      intros ->%list_elem_of_singleton. done.
  - set (T := take (S (S i)) a) in *.
    assert (HT : length T = S (S i)) by (unfold T; rewrite length_take; lia).
    set (G := fun o : option A =>
      if decide (p = S i)
      then (if decide (o = Some x) then fact (S i) else 0)
      else (if decide (x ∈ T /\ o <> Some x) then fact i else 0)).
    cbn [choices]. rewrite count_bind.
    rewrite (sum_list_with_ext _ (fun j => G (a !! j))).
    + rewrite sum_indices_elements by lia. fold T. unfold G.
      destruct (decide (p = S i)) as [->|Hne].
      * rewrite (sum_list_with_ext _
          (fun y => if decide (y = x) then fact (S i) else 0)).
        -- rewrite sum_indicator by done. destruct (decide (x ∈ T)); lia.
        -- intros y _. destruct (decide (y = x)) as [->|Hyx].
           ++ by rewrite decide_True.
           ++ rewrite decide_False; [done|congruence].
      * destruct (decide (x ∈ T)) as [Hin|Hnin].
        -- rewrite (sum_list_with_ext _
             (fun y => if decide (y = x) then 0 else fact i)).
           ++ rewrite sum_indicator, decide_True, HT by done.
              cbn [Nat.sub fact]. lia.
           ++ intros y _. destruct (decide (y = x)) as [->|Hyx].
              ** rewrite decide_False; [done|]. intros [_ Hc]. done.
              ** rewrite decide_True; [done|]. split; [done|congruence].
        -- rewrite (sum_list_with_ext _ (fun _ => 0)).
           ++ rewrite sum_list_with_const. lia.
           ++ intros y _. rewrite decide_False; [done|]. by intros [? _].
    + intros j Hj. apply elem_of_seq in Hj.
      rewrite count_fmap. cbn [shuffle_steps hd tl].
      rewrite Nat.mod_small by lia. unfold G.
      destruct (decide (p = S i)) as [->|Hne].
      * rewrite (count_ext _ (fun _ => a !! j = Some x)).
        -- rewrite count_const, choices_length. done.
        -- intros cs. rewrite shuffle_steps_frame, swap_lookup by lia.
           repeat case_decide; by subst.
      * destruct (swap_prefix a (S i) j x) as [Hnd' Hiff]; [lia..|done|].
        rewrite IH by (rewrite ?swap_length; first [done|lia]).
        destruct (decide (x ∈ take (S i) (swap a (S i) j))) as [Hin|Hnin].
        -- rewrite decide_True; [done|]. by apply Hiff.
        -- rewrite decide_False; [done|]. intros Hc. by apply Hnin, Hiff.
Qed.

End ShuffleCount.

Section ShuffleIndex.
Local Open Scope nat_scope.
Context {A : Type}.
Implicit Types (a arr : list A) (i j k : nat) (g : Rng).

(** The output is the input read through the shuffled indices: running
    the loop on the array and on the list of its indices with the same
    random source, the cell [p] of the first holds the input element
    whose index is in the cell [p] of the second. *)
Lemma shuffle_loop_index (src : list A) i : forall a (b : list nat) g,
  length a = length b ->
  (forall p, a !! p = b !! p ≫= (src !!.)) ->
  (shuffle_loop i a g).2 = (shuffle_loop i b g).2
  /\ forall p, (shuffle_loop i a g).1 !! p
              = (shuffle_loop i b g).1 !! p ≫= (src !!.).
Proof.
  induction i as [|i IH]; intros a b g Hlen Hab; [done|].
  cbn [shuffle_loop]. destruct (random_below (S i + 1) g) as [j g'].
  apply IH; [by rewrite !swap_length|]. intros p.
  destruct (decide (S i < length a /\ j < length a)) as [[Hi Hj]|Hn].
  - rewrite !swap_lookup by lia. apply Hab.
  - rewrite (swap_out_of_range a), (swap_out_of_range b) by lia. apply Hab.
Qed.

Lemma shuffleArray_index arr g p :
  (shuffleArray arr g).1 !! p
  = (shuffleArray (seq 0 (length arr)) g).1 !! p ≫= (arr !!.).
Proof.
  unfold shuffleArray. rewrite length_seq.
  apply shuffle_loop_index; [by rewrite length_seq|]. intros q.
  destruct (decide (q < length arr)) as [Hq|Hq].
  - by rewrite lookup_seq_lt.
  - rewrite lookup_seq_ge by lia. cbn. apply lookup_ge_None. lia.
Qed.

End ShuffleIndex.

Section AppFacts.
Import JSON App.

Lemma render_state c : state (render c) = state c.
Proof.
  unfold render. destruct (compute_daySlices (state c) (rng c)) as [v g'].
  destruct (memo c) as [m|]; [|done]. by destruct (deps_unchanged m (state c)).
Qed.

Lemma render_localStorage c : localStorage (render c) = localStorage c.
Proof.
  unfold render. destruct (compute_daySlices (state c) (rng c)) as [v g'].
  destruct (memo c) as [m|]; [|done]. by destruct (deps_unchanged m (state c)).
Qed.

(** After a render the memo cell holds a value for the current
    dependencies. *)
Lemma render_memo c :
  exists m, memo (render c) = Some m /\ deps_unchanged m (state c) = true.
Proof.
  unfold render. destruct (compute_daySlices (state c) (rng c)) as [v g'].
  assert (Hnew : deps_unchanged
            (mkMemo (array_id (words (state c))) (currentDay (state c)) v)
            (state c) = true).
  { unfold deps_unchanged. cbn. by rewrite Nat.eqb_refl, Z.eqb_refl. }
  destruct (memo c) as [m|] eqn:Em; [|by eexists].
  destruct (deps_unchanged m (state c)) eqn:Ed; by eexists.
Qed.

(** A render with unchanged dependencies does nothing. *)
Lemma render_keep c m :
  memo c = Some m -> deps_unchanged m (state c) = true -> render c = c.
Proof. intros Hm Hd. unfold render. by rewrite Hm, Hd. Qed.

Lemma render_idem c : render (render c) = render c.
Proof.
  destruct (render_memo c) as (m & Hm & Hd).
  apply (render_keep _ m Hm). by rewrite render_state.
Qed.

(** Handlers that leave [words] and [currentDay] alone do not disturb
    the cached slices. *)
Lemma render_with_state (f : State -> State) c m :
  memo c = Some m -> deps_unchanged m (state c) = true ->
  array_id (words (f (state c))) = array_id (words (state c)) ->
  currentDay (f (state c)) = currentDay (state c) ->
  render (with_state f c) = with_state f c.
Proof.
  intros Hm Hd Hw Hday. apply (render_keep _ m); [done|].
  unfold deps_unchanged in *. cbn. by rewrite Hw, Hday.
Qed.

Lemma deps_unchanged_spec m s :
  deps_unchanged m s = true <->
  dep_words m = array_id (words s) /\ dep_day m = currentDay s.
Proof.
  unfold deps_unchanged.
  rewrite andb_true_iff, Nat.eqb_eq, Z.eqb_eq. done.
Qed.

End AppFacts.

(** * Part III: the claims *)


Section AppClaims.
Import JSON App.

Lemma handle_memo_rng e c :
  memo (handle e c) = memo c /\ rng (handle e c) = rng c.
Proof.
  destruct e; cbn [handle]; try done.
  - unfold prevWord. by destruct (_ >? _).
  - unfold nextWord. by destruct (_ <? _).
  - unfold addToConfusing. destruct (currentWord c); [|done].
    by destruct (negb _).
  - unfold removeFromConfusing. by destruct (_ && _).
  - unfold toggleAllAnswers. by destruct (_ =? _)%nat.
Qed.

(** An event that leaves the identity of [words] and [currentDay] alone
    finds the cache as it was. *)
Lemma step_keeps_cache e c :
  rendered c ->
  array_id (words (state (step e c))) = array_id (words (state c)) ->
  currentDay (state (step e c)) = currentDay (state c) ->
  memo (step e c) = memo c /\ rng (step e c) = rng c.
Proof.
  intros (m & Hm & Hd) Hw Hday. unfold step in *.
  rewrite render_state in Hw, Hday.
  destruct (handle_memo_rng e c) as [Hm' Hg'].
  rewrite (render_keep (handle e c) m); [done|congruence|].
  apply deps_unchanged_spec in Hd as [Hd1 Hd2].
  apply deps_unchanged_spec. split; congruence.
Qed.

Lemma render_rendered c : rendered (render c).
Proof.
  destruct (render_memo c) as (m & Hm & Hd). exists m.
  by rewrite render_state.
Qed.

Lemma step_rendered e c : rendered (step e c).
Proof. apply render_rendered. Qed.

Lemma toggle_step t c :
  rendered c ->
  let c' := step (toggle_event t) c in
  memo c' = memo c /\ rng c' = rng c /\
  words (state c') = words (state c) /\
  currentDay (state c') = currentDay (state c) /\
  showConfusing (state c') = showConfusing (state c) /\
  confusingWords (state c') = confusingWords (state c) /\
  currentIndex (state c') = currentIndex (state c).
Proof.
  intros Hr c'.
  assert (Hst : state c' = state (handle (toggle_event t) c))
    by apply render_state.
  assert (Hw : words (state c') = words (state c))
    by (rewrite Hst; by destruct t).
  assert (Hday : currentDay (state c') = currentDay (state c))
    by (rewrite Hst; by destruct t).
  destruct (step_keeps_cache (toggle_event t) c Hr) as [Hm Hg];
    [by f_equal|done|].
  repeat split; try done; rewrite Hst; by destruct t.
Qed.

Lemma toggles_run ts : forall c,
  rendered c ->
  let c' := run (toggle_event <$> ts) c in
  rendered c' /\ memo c' = memo c /\ rng c' = rng c /\
  words (state c') = words (state c) /\
  currentDay (state c') = currentDay (state c) /\
  showConfusing (state c') = showConfusing (state c) /\
  confusingWords (state c') = confusingWords (state c) /\
  currentIndex (state c') = currentIndex (state c).
Proof.
  induction ts as [|t ts IH]; intros c Hr; [done|].
  cbn [fmap list_fmap run foldl].
  destruct (toggle_step t c Hr) as (H1 & H2 & H3 & H4 & H5 & H6 & H7).
  destruct (IH (step (toggle_event t) c) (step_rendered _ _))
    as (K0 & K1 & K2 & K3 & K4 & K5 & K6 & K7).
  unfold run in *. repeat split; try done; congruence.
Qed.

(** C1 (shuffle-cache stability). Starting from any rendered component,
    whatever sequence of view-mode and direction toggles is applied, the
    cached day slices are the ones of before (same elements, same order),
    no random number is drawn, and in card view outside confusing mode
    the active-set resolver returns the shuffled slice of before. Any
    event at all that keeps the identity of the corpus and the current
    day leaves the cache and the random source as they were; a change of
    day does recompute the slices from the random source. *)
Theorem shuffle_cache_stable (c : Component) (ts : list Toggle) :
  let c0 := render c in
  let c1 := run (toggle_event <$> ts) c0 in
  daySlices c1 = daySlices c0
  /\ rng c1 = rng c0
  /\ words (state c1) = words (state c0)
  /\ currentDay (state c1) = currentDay (state c0)
  /\ (showConfusing (state c1) = false -> viewMode (state c1) = Card ->
      currentWords c1 = shuffled (daySlices c0))
  /\ (forall e,
        array_id (words (state (step e c1))) = array_id (words (state c1)) ->
        currentDay (state (step e c1)) = currentDay (state c1) ->
        memo (step e c1) = memo c1 /\ rng (step e c1) = rng c1)
  /\ (forall d, d <> currentDay (state c1) ->
        let r := compute_daySlices (setCurrentDay d (state c1)) (rng c1) in
        daySlices (step (ChangeDay d) c1) = r.1
        /\ rng (step (ChangeDay d) c1) = r.2).
Proof.
  intros c0 c1.
  destruct (toggles_run ts c0 (render_rendered c))
    as (Hr & Hm & Hg & Hw & Hday & Hsc & Hcw & Hci).
  fold c1 in Hr, Hm, Hg, Hw, Hday, Hsc, Hcw, Hci.
  assert (Hds : daySlices c1 = daySlices c0) by (unfold daySlices; by rewrite Hm).
  repeat split; try done.
  - intros Hs Hv. unfold currentWords. by rewrite Hs, Hv, Hds.
  - by apply step_keeps_cache.
  - by apply step_keeps_cache.
  - destruct Hr as (m & Hm1 & Hd). apply deps_unchanged_spec in Hd as [Hd1 Hd2].
    unfold step, handle, changeDay, render, daySlices.
    cbn [memo state with_state rng]. rewrite Hm1.
    assert (Hne : deps_unchanged m
      (setHiddenAnswers ∅ (setShowConfusing false (setIsFlipped false
        (setCurrentIndex 0 (setCurrentDay d (state c1)))))) = false).
    { unfold deps_unchanged. cbn. apply andb_false_iff. right.
      apply Z.eqb_neq. congruence. }
    rewrite Hne. unfold compute_daySlices. cbn.
    by destruct (shuffleArray _ _).
  - destruct Hr as (m & Hm1 & Hd). apply deps_unchanged_spec in Hd as [Hd1 Hd2].
    unfold step, handle, changeDay, render.
    cbn [memo state with_state rng]. rewrite Hm1.
    assert (Hne : deps_unchanged m
      (setHiddenAnswers ∅ (setShowConfusing false (setIsFlipped false
        (setCurrentIndex 0 (setCurrentDay d (state c1)))))) = false).
    { unfold deps_unchanged. cbn. apply andb_false_iff. right.
      apply Z.eqb_neq. congruence. }
    rewrite Hne. unfold compute_daySlices. cbn.
    by destruct (shuffleArray _ _).
Qed.

Lemma shuffle_cache_stable_witness :
  let c0 := render (sample_app 5) in
  let c1 := run (toggle_event <$> [TViewMode; TDirection; TViewMode]) c0 in
  currentWords c1 = shuffled (daySlices c0)
  /\ memo (step NextWord c1) = memo c1
  /\ shuffled (daySlices (step (ChangeDay 2) c1)) = [].
Proof.
  intros c0 c1.
  destruct (shuffle_cache_stable (sample_app 5)
              [TViewMode; TDirection; TViewMode])
    as (_ & _ & _ & _ & Hcard & Hkeep & Hday).
  split; [apply Hcard; reflexivity|].
  split; [apply (Hkeep NextWord); reflexivity|].
  destruct (Hday 2) as [Hv _]; [by vm_compute|].
  fold c0 c1 in Hv. rewrite Hv. reflexivity.
Defined.

Lemma compute_daySlices_ordered s g :
  ordered (compute_daySlices s g).1 = daySlice (items (words s)) (currentDay s).
Proof. unfold compute_daySlices. by destruct (shuffleArray _ _). Qed.

Lemma compute_daySlices_shuffled s g :
  shuffled (compute_daySlices s g).1
  = (shuffleArray (daySlice (items (words s)) (currentDay s)) g).1.
Proof. unfold compute_daySlices. by destruct (shuffleArray _ _). Qed.

Lemma handle_keeps_words e c :
  (forall cleaned, e <> CsvLoaded cleaned) ->
  words (state (handle e c)) = words (state c)
  /\ nextArrayId (handle e c) = nextArrayId c.
Proof.
  intros He. destruct e; cbn [handle]; try done.
  - by destruct (He cleaned).
  - unfold prevWord. by destruct (_ >? _).
  - unfold nextWord. by destruct (_ <? _).
  - unfold addToConfusing. destruct (currentWord c); [|done].
    by destruct (negb _).
  - unfold removeFromConfusing. by destruct (_ && _).
  - unfold toggleAllAnswers. by destruct (_ =? _)%nat.
Qed.

Lemma render_memo_sound c : memo_sound c -> memo_sound (render c).
Proof.
  intros [Hid Hm]. unfold render.
  destruct (compute_daySlices (state c) (rng c)) as [v g'] eqn:Ev.
  assert (Hnew : memo_sound
    (mkComponent (state c)
       (Some (mkMemo (array_id (words (state c))) (currentDay (state c)) v))
       g' (localStorage c) (nextArrayId c))).
  { split; [done|]. intros m [= <-]. cbn. split; [done|]. intros _.
    pose proof (compute_daySlices_ordered (state c) (rng c)) as Ho.
    pose proof (compute_daySlices_shuffled (state c) (rng c)) as Hs.
    rewrite Ev in Ho, Hs. cbn [fst] in Ho, Hs. split; [done|].
    rewrite Hs, Ho. apply shuffleArray_perm. }
  destruct (memo c) as [m|] eqn:Em; [|done].
  destruct (deps_unchanged m (state c)); [|done]. split; [done|].
  intros m' Hm'. apply Hm. congruence.
Qed.

Lemma step_memo_sound e c : memo_sound c -> memo_sound (step e c).
Proof.
  intros [Hid Hm]. apply render_memo_sound.
  destruct (handle_memo_rng e c) as [Hmemo _].
  destruct e as [cleaned| | | | | | | | | | | |];
    try (match goal with
         | |- memo_sound (handle ?e c) =>
             destruct (handle_keeps_words e c ltac:(intros ?; discriminate))
               as [Hw Hn]
         end;
         split; [by rewrite Hw, Hn|];
         intros m Em; rewrite Hmemo in Em; rewrite Hw, Hn; by apply Hm).
  cbn [handle] in *. unfold loadCSV_complete, memo_sound. cbn.
  split; [lia|]. intros m Em. destruct (Hm m Em) as [Hlt _]. split; lia.
Qed.

(** In every component reached from the first render, the cached
    ordered slice is the slice of the current corpus for the current
    day, and the cached shuffled slice is a rearrangement of it. *)
Lemma daySlices_of_session c :
  reachable c ->
  ordered (daySlices c)
  = daySlice (items (words (state c))) (currentDay (state c))
  /\ shuffled (daySlices c) ≡ₚ ordered (daySlices c).
Proof.
  intros Hc.
  assert (Hsound : memo_sound c /\ rendered c).
  { induction Hc as [saved g store|e c Hc [IH _]].
    - split; [|apply render_rendered]. apply render_memo_sound.
      split; [cbn; lia|done].
    - split; [by apply step_memo_sound|apply step_rendered]. }
  destruct Hsound as [[_ Hm] (m & Em & Hd)].
  apply deps_unchanged_spec in Hd as [Hd1 Hd2].
  unfold daySlices. rewrite Em. rewrite <- Hd2. by apply Hm.
Qed.

(** C4 (day partition). Once a corpus of [n] cleaned records is loaded,
    [totalDays] is the ceiling of [n / 100] (the integer [dc] with
    [100 * (dc - 1) < n <= 100 * dc]); for every day [d] of
    [[1, totalDays]] the ordered slice computed for [d] is
    [words[(d-1)*100 : d*100]], has at most 100 records and is not
    empty; the slices of days [1 .. totalDays] in order concatenate to
    the corpus; and 250 records give 3 days, the third of 50 records. *)
Theorem day_partition (cleaned : list WordRecord) (c : Component) (g : Rng) :
  let c1 := loadCSV_complete cleaned c in
  let n := JS.len cleaned in
  let dc := totalDays (state c1) in
  let slice d := ordered (compute_daySlices (setCurrentDay d (state c1)) g).1 in
  items (words (state c1)) = cleaned
  /\ 100 * (dc - 1) < n <= 100 * dc
  /\ (forall d, 1 <= d <= dc ->
        slice d = take 100 (drop (Z.to_nat ((d - 1) * 100)) cleaned)
        /\ (length (slice d) <= 100)%nat
        /\ slice d <> [])
  /\ concat (slice <$> seqZ 1 dc) = cleaned
  /\ (n = 250 -> dc = 3 /\ length (slice 3) = 50%nat).
Proof.
  intros c1 n dc slice.
  assert (Hdc : dc = dayCount cleaned) by done.
  assert (Hslice : forall d, slice d = daySlice cleaned d).
  { intros d. unfold slice. by rewrite compute_daySlices_ordered. }
  pose proof (dayCount_spec cleaned) as Hspec. fold n in Hspec.
  split; [done|]. split; [by rewrite Hdc|]. split; [|split].
  - intros d Hd. rewrite Hslice. split; [|split].
    + rewrite daySlice_in_range by lia. do 2 f_equal. lia.
    + apply daySlice_length_le.
    + apply daySlice_nonempty_in_range. by rewrite <- Hdc.
  - rewrite Hdc. etrans; [|apply (daySlices_concat cleaned)].
    f_equal. apply list_fmap_ext. intros _ d _. apply Hslice.
  - intros Hn. assert (dc = 3) as Hdc3 by lia. split; [done|].
    rewrite Hslice, daySlice_in_range by lia.
    rewrite length_take, length_drop. unfold n, JS.len in Hn. lia.
Qed.

Lemma day_partition_witness :
  let c1 := loadCSV_complete (sample_corpus 250) (mount [] sample_rng ∅) in
  let slice d :=
    ordered (compute_daySlices (setCurrentDay d (state c1)) sample_rng).1 in
  (totalDays (state c1) = 3 /\ length (slice 3) = 50%nat)
  /\ (length (slice 2%Z) <= 100)%nat.
Proof.
  intros c1 slice.
  destruct (day_partition (sample_corpus 250) (mount [] sample_rng ∅) sample_rng)
    as (_ & _ & Hin & _ & H250).
  split; [apply H250; reflexivity|].
  apply (Hin 2). by vm_compute.
Defined.

(** C5 as stated fails: with 250 records, day [-1] lies outside
    [[1, dayCount]] and its slice is not empty: it holds the 100 records
    of indices 50 to 149, in both revisions. *)
Lemma out_of_range_day_counterexample :
  (currentDay negative_day_app < 1
   \/ dayCount (items (words negative_day_app)) < currentDay negative_day_app)
  /\ ordered (compute_daySlices negative_day_app sample_rng).1 <> []
  /\ ordered (compute_daySlices negative_day_app sample_rng).1
     = take 100 (drop 50 (sample_corpus 250))
  /\ Gated.showConfusing negative_day_gated = false
  /\ Gated.getCurrentWords negative_day_gated <> []
  /\ Gated.getCurrentWords negative_day_gated
     = take 100 (drop 50 (sample_corpus 250)).
Proof.
  assert (H1 : ordered (compute_daySlices negative_day_app sample_rng).1
               = take 100 (drop 50 (sample_corpus 250))) by (by vm_compute).
  assert (H2 : Gated.getCurrentWords negative_day_gated
               = take 100 (drop 50 (sample_corpus 250))) by (by vm_compute).
  split; [left; by vm_compute|].
  rewrite H1, H2. repeat split; by vm_compute.
Qed.

(** C5, amended. For a day outside [[1, dayCount]], the day-slice
    computation of either revision returns the empty word set exactly
    when the day is 0, or is above [dayCount], or is negative with a
    corpus of at most [100 * |day|] records; for the other negative days
    the slice is taken from the end of the corpus and is not empty. *)
Theorem out_of_range_day_slice :
  (forall (s : State) (g : Rng),
     let day := currentDay s in
     let ws := items (words s) in
     day < 1 \/ dayCount ws < day ->
     (ordered (compute_daySlices s g).1 = [] <->
      day = 0 \/ dayCount ws < day \/ JS.len ws <= -100 * day))
  /\ (forall t : Gated.State,
     let day := Gated.currentDay t in
     let ws := Gated.words t in
     Gated.showConfusing t = false ->
     day < 1 \/ dayCount ws < day ->
     (Gated.getCurrentWords t = [] <->
      day = 0 \/ dayCount ws < day \/ JS.len ws <= -100 * day)).
Proof.
  split.
  - intros s g day ws Hout. rewrite compute_daySlices_ordered.
    by apply daySlice_out_of_range.
  - intros t day ws Hsc Hout. unfold Gated.getCurrentWords. rewrite Hsc.
    by apply (daySlice_out_of_range ws day).
Qed.

Lemma out_of_range_day_slice_witness :
  let s := setCurrentDay 4 (state (sample_app 250)) in
  let t := Gated.mkState (sample_corpus 250) 0 0 false KoToEn [] false 3 false ""
             Card ∅ None ∅ in
  ordered (compute_daySlices s sample_rng).1 = []
  /\ Gated.getCurrentWords t = [].
Proof.
  intros s t. destruct out_of_range_day_slice as [Ha Hg]. split.
  - apply (Ha s sample_rng); [right; by vm_compute|right; left; by vm_compute].
  - apply (Hg t); [reflexivity|left; by vm_compute|by left].
Defined.

(** C6 (boundary no-ops). In a rendered component with a non-empty
    active word set, [nextWord] at the last position and [prevWord] at
    position 0 leave the whole component as it is: the handler changes
    nothing and the event, render included, changes nothing. *)
Theorem boundary_noops (c0 : Component) :
  let c := render c0 in
  currentWords c <> [] ->
  (currentIndex (state c) = JS.len (currentWords c) - 1 ->
   nextWord c = c /\ step NextWord c = c)
  /\ (currentIndex (state c) = 0 ->
      prevWord c = c /\ step PrevWord c = c).
Proof.
  intros c _. split; intros Hi.
  - assert (Hn : nextWord c = c).
    { unfold nextWord. rewrite Hi. by rewrite Z.ltb_irrefl. }
    split; [done|]. unfold step, handle. rewrite Hn. apply render_idem.
  - assert (Hp : prevWord c = c).
    { unfold prevWord. by rewrite Hi. }
    split; [done|]. unfold step, handle. rewrite Hp. apply render_idem.
Qed.

Lemma boundary_noops_witness :
  let c := render (step NextWord (step NextWord (sample_app 3))) in
  let c' := render (sample_app 3) in
  (nextWord c = c /\ step NextWord c = c)
  /\ (prevWord c' = c' /\ step PrevWord c' = c').
Proof.
  intros c c'. split.
  - apply (boundary_noops (step NextWord (step NextWord (sample_app 3))));
      [by vm_compute|reflexivity].
  - apply (boundary_noops (sample_app 3)); [by vm_compute|reflexivity].
Defined.

Lemma some_stringify_eq (r : WordRecord) (cw : list WordRecord) :
  existsb (fun w' => String.eqb (stringify w') (stringify r)) cw
  = bool_decide (r ∈ cw).
Proof.
  induction cw as [|w cw IH]; [done|]. cbn [existsb].
  rewrite IH, stringify_eqb. clear IH.
  destruct (decide (w = r)) as [->|Hne].
  - rewrite bool_decide_eq_true_2 by done. cbn. symmetry.
    apply bool_decide_eq_true_2. left.
  - rewrite (bool_decide_eq_false_2 (w = r)) by done. cbn.
    apply bool_decide_ext. rewrite elem_of_cons.
    split; [by right|]. intros [Heq|Hin]; [by subst|done].
Qed.

Lemma get_elem_of {B} (l : list B) (i : Z) (x : B) :
  JS.get l i = Some x -> x ∈ l.
Proof.
  unfold JS.get. destruct (i <? 0); [done|]. apply list_elem_of_lookup_2.
Qed.

(** C7 (confusing-set add). Let [r] be the record under the cursor. If
    the confusing set holds a record equal to [r] (equality of the
    ordered mappings: the same keys in the same order with the same
    values, which is what comparing the [JSON.stringify] texts decides),
    [addToConfusing] changes nothing; otherwise it appends [r] to the
    set, writes the new set to [localStorage], and changes nothing else.
    Adding twice is adding once: from the empty set, two adds leave
    exactly [[r]]. *)
Theorem add_confusing_idempotent (c : Component) (r : WordRecord) :
  currentWord c = Some r ->
  let cw := confusingWords (state c) in
  (r ∈ cw -> addToConfusing c = c)
  /\ (r ∉ cw ->
      addToConfusing c
      = setItem storage_key (stringify_array (cw ++ [r]))
          (with_state (setConfusingWords (cw ++ [r])) c))
  /\ addToConfusing (addToConfusing c) = addToConfusing c
  /\ (cw = [] ->
      confusingWords (state (addToConfusing (addToConfusing c))) = [r]).
Proof.
  intros Hr cw.
  assert (Hin : r ∈ cw -> addToConfusing c = c).
  { intros Hin. unfold addToConfusing. rewrite Hr, some_stringify_eq.
    fold cw. by rewrite bool_decide_eq_true_2. }
  assert (Hout : r ∉ cw ->
      addToConfusing c
      = setItem storage_key (stringify_array (cw ++ [r]))
          (with_state (setConfusingWords (cw ++ [r])) c)).
  { intros Hnin. unfold addToConfusing. rewrite Hr, some_stringify_eq.
    fold cw. by rewrite bool_decide_eq_false_2. }
  assert (Hidem : addToConfusing (addToConfusing c) = addToConfusing c).
  { destruct (decide (r ∈ cw)) as [Hd|Hd].
    - by rewrite !Hin.
    - rewrite (Hout Hd).
      assert (Hsc : showConfusing (state c) = false).
      { destruct (showConfusing (state c)) eqn:Hsc; [|done].
        exfalso. apply Hd. apply (get_elem_of _ (currentIndex (state c))).
        unfold currentWord, currentWords in Hr. by rewrite Hsc in Hr. }
      unfold addToConfusing at 1.
      assert (Hcur : currentWord
                (setItem storage_key (stringify_array (cw ++ [r]))
                   (with_state (setConfusingWords (cw ++ [r])) c)) = Some r).
      { unfold currentWord, currentWords in *. cbn. by rewrite Hsc in *. }
      rewrite Hcur, some_stringify_eq. cbn.
      rewrite bool_decide_eq_true_2; [done|]. set_solver. }
  repeat split; try done.
  intros Hnil. rewrite Hidem, Hout; [cbn; by rewrite Hnil|].
  rewrite Hnil. set_solver.
Qed.

Lemma add_confusing_idempotent_witness :
  let c := sample_app 3 in
  confusingWords (state (addToConfusing (addToConfusing c)))
  = [sample_record 1]
  /\ addToConfusing (addToConfusing c) = addToConfusing c
  /\ addToConfusing (addToConfusing c)
     = setItem storage_key (stringify_array [sample_record 1])
         (with_state (setConfusingWords [sample_record 1]) c).
Proof.
  intros c.
  destruct (add_confusing_idempotent c (sample_record 1))
    as (_ & Hout & Hidem & Hone); [reflexivity|].
  split; [by apply Hone|]. split; [done|].
  rewrite Hidem. apply Hout. apply not_elem_of_nil.
Defined.

(** [arr.filter((_, i) => i !== k)] deletes the element of index [k],
    if there is one. *)
Lemma filter_index_ne_spec {B} (l : list B) : forall st k : Z,
  JS.filter_index_ne l st k
  = if (st <=? k) && (k <? st + JS.len l)
    then delete (Z.to_nat (k - st)) l else l.
Proof.
  unfold JS.len. induction l as [|x l IH]; intros st k.
  - by destruct (_ && _).
  - cbn [JS.filter_index_ne]. rewrite IH.
    destruct (Z.eqb_spec st k) as [->|Hne].
    + rewrite Z.sub_diag, Z.leb_refl.
      rewrite (proj2 (Z.ltb_lt k (k + Z.of_nat (length (x :: l)))))
        by (cbn [length]; lia).
      rewrite (proj2 (Z.leb_gt (k + 1) k)) by lia. done.
    + destruct (Z.leb_spec st k), (Z.leb_spec (st + 1) k); try lia;
        destruct (Z.ltb_spec k (st + 1 + Z.of_nat (length l))),
          (Z.ltb_spec k (st + Z.of_nat (length (x :: l))));
        cbn [length] in *; try lia; cbn [andb]; try done.
      replace (Z.to_nat (k - st)) with (S (Z.to_nat (k - (st + 1)))) by lia.
      done.
Qed.

Lemma removeFromConfusing_state c :
  let s := state c in
  let cw' := JS.filter_index_ne (confusingWords s) 0 (currentIndex s) in
  confusingWords (state (removeFromConfusing c)) = cw'
  /\ currentIndex (state (removeFromConfusing c))
     = (if (currentIndex s >=? JS.len cw') && negb (JS.len cw' =? 0)
        then JS.len cw' - 1 else currentIndex s)
  /\ isFlipped (state (removeFromConfusing c)) = false
  /\ showConfusing (state (removeFromConfusing c)) = showConfusing s
  /\ localStorage (removeFromConfusing c)
     = <[storage_key := stringify_array cw']> (localStorage c)
  /\ memo (removeFromConfusing c) = memo c
  /\ rng (removeFromConfusing c) = rng c.
Proof.
  intros s cw'. unfold removeFromConfusing. fold s. fold cw'.
  by destruct (_ && _).
Qed.

(** At a valid position the filter of [removeFromConfusing] deletes
    the member under the cursor. *)
Lemma remove_deletes_current (cw : list WordRecord) (i : Z) :
  0 <= i < JS.len cw \/ (cw = [] /\ i = 0) ->
  JS.filter_index_ne cw 0 i = delete (Z.to_nat i) cw
  /\ (cw <> [] -> JS.len (delete (Z.to_nat i) cw) = JS.len cw - 1).
Proof.
  intros Hok. split.
  - rewrite filter_index_ne_spec, Z.sub_0_r.
    destruct Hok as [Hin|[Hnil Hz]].
    + destruct (Z.leb_spec 0 i), (Z.ltb_spec i (0 + JS.len cw));
        try lia; done.
    + by rewrite Hnil, Hz.
  - intros Hne. destruct Hok as [Hin|[Hnil _]]; [|done].
    unfold JS.len in *. rewrite length_delete; [lia|].
    apply lookup_lt_is_Some_2. lia.
Qed.

(** C8 (confusing-set remove). At a position that designates a member
    of the confusing set (or at position 0 of the empty set),
    [removeFromConfusing] deletes the member at the current position and
    persists the new set; if the position is then at or beyond the new
    length it becomes the last position of the new set (0 when the set
    has become empty), so that it designates a member again whenever
    the set is not empty. With 3 members and position 2, the position
    becomes 1. *)
Theorem remove_confusing_reclamp (c : Component) :
  let s := state c in
  let cw := confusingWords s in
  let i := currentIndex s in
  let c' := removeFromConfusing c in
  let cw' := confusingWords (state c') in
  confusing_position_ok s ->
  cw' = delete (Z.to_nat i) cw
  /\ (cw <> [] -> JS.len cw' = JS.len cw - 1)
  /\ currentIndex (state c')
     = (if i >=? JS.len cw'
        then (if JS.len cw' =? 0 then 0 else JS.len cw' - 1) else i)
  /\ (cw' <> [] -> 0 <= currentIndex (state c') < JS.len cw')
  /\ isFlipped (state c') = false
  /\ localStorage c' !! storage_key = Some (stringify_array cw')
  /\ (JS.len cw = 3 -> i = 2 -> currentIndex (state c') = 1).
Proof.
  intros s cw i c' cw' Hok.
  destruct (removeFromConfusing_state c) as (Hcw & Hi & Hf & _ & Hst & _).
  cbv zeta in Hcw, Hi, Hst.
  change (confusingWords (state (removeFromConfusing c))) with cw' in Hcw.
  change (state c) with s in Hcw, Hi, Hst.
  change (confusingWords s) with cw in Hcw, Hi, Hst.
  change (currentIndex s) with i in Hcw, Hi, Hst.
  change (removeFromConfusing c) with c' in Hi, Hf, Hst.
  rewrite <- Hcw in Hi, Hst. unfold confusing_position_ok in Hok.
  change (confusingWords s) with cw in Hok.
  change (currentIndex s) with i in Hok.
  clearbody cw' c' i cw.
  destruct (remove_deletes_current cw i Hok) as [Hdel Hlen].
  rewrite <- Hcw in Hdel. rewrite <- Hdel in Hlen.
  assert (Hcw0 : 0 <= JS.len cw') by (unfold JS.len; lia).
  assert (Hidx : currentIndex (state c')
     = (if i >=? JS.len cw'
        then (if JS.len cw' =? 0 then 0 else JS.len cw' - 1) else i)).
  { rewrite Hi. destruct (Z.geb_spec i (JS.len cw')) as [Hge|Hlt]; [|done].
    destruct (Z.eqb_spec (JS.len cw') 0) as [Hz|Hnz]; [|done]. cbn.
    destruct Hok as [Hin|[_ Hz']]; [|done].
    assert (cw <> []) as Hne.
    { intros Hnil. rewrite Hnil in Hin. unfold JS.len in Hin.
      cbn [length] in Hin. lia. }
    specialize (Hlen Hne). lia. }
  assert (Hrange : cw' <> [] -> 0 <= currentIndex (state c') < JS.len cw').
  { intros Hne. rewrite Hidx. assert (JS.len cw' <> 0).
    { unfold JS.len. destruct cw'; [done|cbn; lia]. }
    assert (0 <= i) by (destruct Hok as [?|[_ ?]]; lia).
    destruct (Z.geb_spec i (JS.len cw')); [|lia].
    destruct (Z.eqb_spec (JS.len cw') 0); lia. }
  split; [done|]. split; [done|]. split; [done|]. split; [done|].
  split; [done|]. split.
  - rewrite Hst. apply lookup_insert_eq.
  - intros H3 H2. rewrite Hidx.
    assert (cw <> []) as Hne by (intros Hnil; rewrite Hnil in H3; done).
    rewrite (Hlen Hne), H3, H2. done.
Qed.

Lemma remove_confusing_reclamp_witness :
  let c := step NextWord (step NextWord (step ToggleConfusingMode
             (mount (sample_corpus 3) sample_rng ∅))) in
  currentIndex (state c) = 2
  /\ currentIndex (state (removeFromConfusing c)) = 1
  /\ confusingWords (state (removeFromConfusing c)) = sample_corpus 2.
Proof.
  intros c. split; [reflexivity|].
  destruct (remove_confusing_reclamp c) as (Hdel & _ & _ & _ & _ & _ & H3).
  { left. by vm_compute. }
  split; [by apply H3|]. rewrite Hdel. reflexivity.
Defined.

(** The positions at which the remove button is offered: in every
    component reached from the first render the position is not
    negative, and in confusing mode it is a position of the kind the
    remove handler is specified for. *)
Lemma confusing_position_reachable c :
  reachable c ->
  0 <= currentIndex (state c)
  /\ (showConfusing (state c) = true -> confusing_position_ok (state c)).
Proof.
  induction 1 as [saved g store|e c Hc [IH0 IH]].
  - unfold mount. rewrite render_state. cbn. split; [lia|done].
  - unfold step. rewrite render_state.
    destruct e; cbn [handle]; try (split; [exact IH0|exact IH]).
    + unfold prevWord.
      destruct (Z.gtb_spec (currentIndex (state c)) 0) as [Hgt|Hle];
        [|by split].
      unfold confusing_position_ok in *. cbn. split; [lia|]. intros Hs.
      destruct (IH Hs) as [Hin|[_ Hz]]; [left; lia|lia].
    + unfold nextWord.
      destruct (Z.ltb_spec (currentIndex (state c))
                  (JS.len (currentWords c) - 1)) as [Hlt|Hge]; [|by split].
      unfold confusing_position_ok in *. cbn. split; [lia|]. intros Hs. left.
      unfold currentWords in Hlt. rewrite Hs in Hlt. lia.
    + unfold addToConfusing. destruct (currentWord c) as [w|]; [|by split].
      destruct (negb _); [|by split].
      unfold confusing_position_ok in *. cbn. split; [done|]. intros Hs.
      left. unfold JS.len in *. rewrite length_app. cbn [length].
      destruct (IH Hs) as [Hin|[_ Hz]]; lia.
    + destruct (removeFromConfusing_state c) as (Hcw & Hi & _ & Hs' & _).
      cbv zeta in Hcw, Hi, Hs'. split.
      * rewrite Hi.
        assert (0 <= JS.len (JS.filter_index_ne (confusingWords (state c)) 0
                               (currentIndex (state c))))
          by (unfold JS.len; lia).
        destruct (_ >=? _), (Z.eqb_spec (JS.len (JS.filter_index_ne
          (confusingWords (state c)) 0 (currentIndex (state c)))) 0);
          cbn; lia.
      * rewrite Hs'. intros Hs. specialize (IH Hs).
        destruct (remove_deletes_current _ _ IH) as [Hdel Hlen].
        unfold confusing_position_ok in *. rewrite Hi, Hcw, Hdel in *.
        set (cw := confusingWords (state c)) in *.
        set (i := currentIndex (state c)) in *.
        assert (0 <= JS.len (delete (Z.to_nat i) cw)) by (unfold JS.len; lia).
        destruct IH as [Hin|[Hnil Hz]].
        -- assert (cw <> []) as Hne.
           { intros Hnil. rewrite Hnil in Hin. unfold JS.len in Hin.
             cbn [length] in Hin. lia. }
           specialize (Hlen Hne).
           destruct (Z.geb_spec i (JS.len (delete (Z.to_nat i) cw)));
             destruct (Z.eqb_spec (JS.len (delete (Z.to_nat i) cw)) 0);
             cbn [andb negb]; try (left; lia).
           right. split; [|lia].
           destruct (delete (Z.to_nat i) cw); [done|].
           unfold JS.len in *. cbn [length] in *. lia.
        -- right. rewrite Hnil, Hz. done.
    + cbn. split; [lia|done].
    + unfold confusing_position_ok. cbn. split; [lia|]. intros _.
      destruct (confusingWords (state c)) as [|w cw]; [by right|left].
      unfold JS.len. cbn [length]. lia.
    + unfold toggleAllAnswers. destruct (_ =? _)%nat; by split.
Qed.

(** C10 ([changeDay] leaves confusing mode). In both revisions, after
    [changeDay d] the component is out of confusing mode, on day [d], at
    position 0, unflipped, with no hidden answer; this holds after the
    render that follows as well. *)
Theorem changeDay_exits_confusing (d : Z) :
  (forall c : Component,
     let s' := state (step (ChangeDay d) c) in
     state (changeDay d c) = s'
     /\ showConfusing s' = false
     /\ currentDay s' = d
     /\ currentIndex s' = 0
     /\ isFlipped s' = false
     /\ hiddenAnswers s' = ∅)
  /\ (forall t : Gated.State,
     let t' := Gated.changeDay d t in
     Gated.showConfusing t' = false
     /\ Gated.currentDay t' = d
     /\ Gated.currentIndex t' = 0
     /\ Gated.isFlipped t' = false
     /\ Gated.hiddenAnswers t' = ∅).
Proof.
  split; [|done]. intros c s'. unfold s', step. by rewrite render_state.
Qed.

End AppClaims.

Section ShuffleClaim.
Local Open Scope nat_scope.
Context {A : Type} `{!EqDecision A}.
Implicit Types (arr : list A) (g : Rng).

Lemma shuffle_loop_rng i : forall (a : list A) g,
  consumed (shuffle_loop i a g).2 = consumed g + i
  /\ outcomes (shuffle_loop i a g).2 = outcomes g.
Proof.
  induction i as [|i IH]; intros a g; [cbn; split; [lia|done]|].
  cbn [shuffle_loop random_below].
  destruct (IH (swap a (S i) (outcomes g (consumed g) mod (S i + 1)))
              (mkRng (outcomes g) (S (consumed g)))) as [H1 H2].
  rewrite H1, H2. cbn. split; [lia|done].
Qed.

Lemma count_ext_in {B} (P1 P2 : B -> Prop)
    `{!forall c, Decision (P1 c)} `{!forall c, Decision (P2 c)} (l : list B) :
  (forall y, y ∈ l -> (P1 y <-> P2 y)) ->
  length (filter P1 l) = length (filter P2 l).
Proof.
  induction l as [|y l IH]; intros Hiff; [done|].
  rewrite !filter_cons.
  assert (Hy : P1 y <-> P2 y) by (apply Hiff; left).
  assert (Hl : length (filter P1 l) = length (filter P2 l)).
  { apply IH. intros z Hz. apply Hiff. by right. }
  destruct (decide (P1 y)), (decide (P2 y)); cbn [length]; tauto || lia.
Qed.

(** C9 ([shuffleArray] is a permutation). The function makes one pass of
    swaps at the indices [length - 1] down to 1, drawing one random
    number for each; its result is a rearrangement of the input; on the
    store of array objects the result is a new array and every array
    that existed before, the input among them, is left as it was; and
    when the choices are uniform each element is equally likely at each
    position: of the [n!] choice sequences for [n] distinct elements,
    exactly [(n-1)!] put a given element at a given position. *)
Theorem shuffleArray_permutation arr g :
  (shuffleArray arr g).1
    = shuffle_steps (length arr - 1) arr
        (outcomes g <$> seq (consumed g) (length arr - 1))
  /\ consumed (shuffleArray arr g).2 = consumed g + (length arr - 1)
  /\ (shuffleArray arr g).1 ≡ₚ arr
  /\ length (shuffleArray arr g).1 = length arr
  /\ (forall (h : list (list A)) (r : nat),
        h !! r = Some arr ->
        let res := shuffleArray_heap r h g in
        res.1.1 = length h
        /\ res.1.1 <> r
        /\ (forall k, k < length h -> res.1.2 !! k = h !! k)
        /\ res.1.2 !! r = Some arr
        /\ res.1.2 !! res.1.1 = Some (shuffleArray arr g).1
        /\ res.2 = (shuffleArray arr g).2)
  /\ (forall p,
        (shuffleArray arr g).1 !! p
        = (shuffleArray (seq 0 (length arr)) g).1 !! p ≫= (arr !!.))
  /\ (forall q p, q < length arr -> p < length arr ->
        length (filter (fun cs =>
                  (shuffleArray (seq 0 (length arr)) (rng_of cs)).1 !! p
                  = Some q)
                  (choices (length arr - 1)))
        = fact (length arr - 1)
        /\ length (choices (length arr - 1)) = fact (length arr))
  /\ (NoDup arr -> forall x p, x ∈ arr -> p < length arr ->
        length (filter (fun cs => (shuffleArray arr (rng_of cs)).1 !! p = Some x)
                  (choices (length arr - 1)))
        = fact (length arr - 1)).
Proof.
  split; [apply shuffle_loop_steps|].
  split; [apply shuffle_loop_rng|].
  split; [apply shuffleArray_perm|].
  split; [apply shuffleArray_length|].
  split.
  - intros h r Hr res. unfold res. rewrite shuffleArray_heap_spec.
    cbn [fst snd]. pose proof (lookup_lt_Some _ _ _ Hr) as Hlt.
    assert (Hrd : heap_read h r = arr) by (unfold heap_read; by rewrite Hr).
    rewrite Hrd. split; [done|]. split; [lia|]. split; [|split; [|split]].
    + intros k Hk. by rewrite lookup_app_l.
    + by rewrite lookup_app_l.
    + by rewrite lookup_app_r, Nat.sub_diag.
    + done.
  - split; [apply shuffleArray_index|].
    assert (Hcount : forall (B : Type) `{!EqDecision B} (l : list B) (x : B) p,
      NoDup l -> x ∈ l -> p < length l ->
      length (filter (fun cs => (shuffleArray l (rng_of cs)).1 !! p = Some x)
                (choices (length l - 1))) = fact (length l - 1)).
    { intros B ? l x p Hnd Hx Hp.
      assert (Hn : S (length l - 1) = length l) by lia.
      rewrite (count_ext_in _
        (fun cs => shuffle_steps (length l - 1) l cs !! p = Some x)).
      - rewrite count_steps; [|lia|rewrite Hn, take_ge by lia; done|lia].
        rewrite Hn, take_ge by lia. by rewrite decide_True.
      - intros cs Hcs. apply choices_elem_length in Hcs.
        unfold shuffleArray. rewrite shuffle_loop_steps.
        assert (outcomes (rng_of cs)
                  <$> seq (consumed (rng_of cs)) (length l - 1) = cs) as ->;
          [|done].
        rewrite <- Hcs. apply rng_of_outcomes. }
    split.
    + intros q p Hq Hp. split.
      * pose proof (Hcount nat _ (seq 0 (length arr)) q p) as Hc.
        rewrite length_seq in Hc.
        apply Hc; [apply NoDup_seq|apply elem_of_seq; lia|done].
      * rewrite choices_length. f_equal. lia.
    + intros Hnd x p Hx Hp. by apply Hcount.
Qed.

End ShuffleClaim.

Lemma shuffleArray_permutation_witness :
  let arr := [10; 20; 30; 40]%nat in
  let res := shuffleArray_heap 0 [arr] sample_rng in
  (res.1.2 !! 0%nat = Some arr
   /\ res.1.2 !! res.1.1 = Some (shuffleArray arr sample_rng).1)
  /\ length (filter (fun cs => (shuffleArray arr (rng_of cs)).1 !! 2%nat
                              = Some 10%nat)
               (choices 3)) = 6%nat
  /\ length (choices 3) = 24%nat.
Proof.
  intros arr res.
  destruct (shuffleArray_permutation arr sample_rng)
    as (_ & _ & _ & _ & Hheap & _ & Hidx & Huni).
  destruct (Hheap [arr] 0%nat) as (_ & _ & _ & Hin & Hout & _); [reflexivity|].
  split; [by split|].
  assert (Hnd : NoDup arr) by compute_done.
  assert (Hx : 10%nat ∈ arr) by compute_done.
  split; [apply (Huni Hnd 10%nat 2%nat Hx); cbn; lia|].
  apply (Hidx 0%nat 2%nat); cbn; lia.
Defined.

Section GatedClaims.
Import JSON Gated.
Local Open Scope Z_scope.

Lemma requestAdvance_pending d s :
  pendingIndex s <> None -> requestAdvance d s = s.
Proof.
  intros Hp. destruct d; cbn [requestAdvance]; unfold nextWord, prevWord, goToWord;
    destruct (pendingIndex s); try done.
  - by destruct (_ <? _).
  - by destruct (_ >? _).
Qed.

Lemma requests_pending ds : forall s,
  pendingIndex s <> None ->
  foldl (fun s d => requestAdvance d s) s ds = s.
Proof.
  induction ds as [|d ds IH]; intros s Hp; [done|].
  cbn [foldl]. rewrite requestAdvance_pending by done. by apply IH.
Qed.

(** C2 (mutual exclusion of advances). While a transition is in flight
    ([pendingIndex] is not [null]), [goToWord] with any target, and so
    every request to advance, leaves the whole state as it is; whatever
    requests pile up, the pending target stays the one recorded first. *)
Theorem advance_while_transitioning (s : State) :
  pendingIndex s <> None ->
  (forall newIdx, goToWord newIdx s = s)
  /\ (forall d, requestAdvance d s = s)
  /\ (forall ds, foldl (fun s d => requestAdvance d s) s ds = s).
Proof.
  intros Hp. split; [|split].
  - intros newIdx. unfold goToWord. by destruct (pendingIndex s).
  - intros d. by apply requestAdvance_pending.
  - intros ds. by apply requests_pending.
Qed.

Lemma advance_while_transitioning_witness :
  let s := nextWord (sample_gated 5 1) in
  pendingIndex s = Some 2
  /\ goToWord 4 s = s
  /\ requestAdvance Prev s = s
  /\ foldl (fun s d => requestAdvance d s) s [Next; Next; Prev] = s.
Proof.
  intros s. split; [reflexivity|].
  destruct (advance_while_transitioning s) as (Hgo & Hreq & Hall); [done|].
  split; [apply Hgo|]. split; [apply Hreq|apply Hall].
Defined.

(** C3 (transition commit). When the animation ends with a pending
    index, [handleTransitionEnd] makes it the current index, unflips the
    card and clears the pending index, and touches nothing else; with no
    pending index it changes nothing. From a settled state, a request to
    advance inside the word set followed by any further requests and
    then the end of the animation moves the position by exactly one
    step, leaves the card unflipped and the controller settled. *)
Theorem transition_commit (s : State) :
  (forall p, pendingIndex s = Some p ->
     handleTransitionEnd s
     = setPendingIndex None (setIsFlipped false (setCurrentIndex p s))
     /\ currentIndex (handleTransitionEnd s) = p
     /\ isFlipped (handleTransitionEnd s) = false
     /\ pendingIndex (handleTransitionEnd s) = None)
  /\ (pendingIndex s = None -> handleTransitionEnd s = s)
  /\ (pendingIndex s = None ->
      forall d ds,
        let target :=
          match d with
          | Next => currentIndex s + 1
          | Prev => currentIndex s - 1
          end in
        0 <= target < JS.len (getCurrentWords s) ->
        let s1 := requestAdvance d s in
        let s2 := foldl (fun s d => requestAdvance d s) s1 ds in
        let s3 := handleTransitionEnd s2 in
        pendingIndex s1 = Some target
        /\ isFlipped s1 = true
        /\ currentIndex s1 = currentIndex s
        /\ s3 = setPendingIndex None
                  (setIsFlipped false (setCurrentIndex target s))
        /\ currentIndex s3 = target
        /\ isFlipped s3 = false
        /\ pendingIndex s3 = None).
Proof.
  split; [|split].
  - intros p Hp. unfold handleTransitionEnd. by rewrite Hp.
  - intros Hp. unfold handleTransitionEnd. by rewrite Hp.
  - intros Hp d ds target Hin s1 s2 s3.
    assert (Hs1 : s1 = setPendingIndex (Some target) (setIsFlipped true s)).
    { unfold s1, target in *. destruct d; cbn [requestAdvance].
      - unfold nextWord, goToWord. rewrite Hp.
        by rewrite (proj2 (Z.ltb_lt _ _)) by lia.
      - unfold prevWord, goToWord. rewrite Hp.
        by rewrite (proj2 (Z.gtb_gt _ _)) by lia. }
    assert (Hs2 : s2 = s1).
    { unfold s2. apply requests_pending. by rewrite Hs1. }
    unfold s3. rewrite Hs2, Hs1. unfold handleTransitionEnd. cbn.
    by destruct s.
Qed.

Lemma transition_commit_witness :
  let s := sample_gated 5 1 in
  let s3 := handleTransitionEnd
              (foldl (fun s d => requestAdvance d s)
                 (requestAdvance Next s) [Next; Prev]) in
  (currentIndex s3 = 2 /\ isFlipped s3 = false /\ pendingIndex s3 = None)
  /\ handleTransitionEnd s = s
  /\ currentIndex (handleTransitionEnd (requestAdvance Prev s)) = 0.
Proof.
  intros s s3.
  destruct (transition_commit s) as (_ & Hnone & Hadv).
  destruct (Hadv eq_refl Next [Next; Prev])
    as (_ & _ & _ & _ & H1 & H2 & H3); [by vm_compute|].
  split; [by repeat split|]. split; [by apply Hnone|].
  destruct (transition_commit (requestAdvance Prev s)) as (Hsome & _ & _).
  by destruct (Hsome 0 eq_refl) as (_ & H & _).
Defined.

End GatedClaims.

(** * Part IV: further properties of the sessions *)

Section SessionFacts.
Import JSON App.
Local Open Scope Z_scope.

Lemma handle_keeps_day e c :
  (forall cleaned, e <> CsvLoaded cleaned) -> (forall d, e <> ChangeDay d) ->
  currentDay (state (handle e c)) = currentDay (state c).
Proof.
  intros He Hd.
  destruct e as [cleaned|msg| | | | | |day| | | | |]; cbn [handle];
    [by destruct (He cleaned)|done|done| | | | |by destruct (Hd day)
    |done|done| |done|done].
  - unfold prevWord. by destruct (_ >? _).
  - unfold nextWord. by destruct (_ <? _).
  - unfold addToConfusing. destruct (currentWord c); [|done].
    by destruct (negb _).
  - unfold removeFromConfusing. by destruct (_ && _).
  - unfold toggleAllAnswers. by destruct (_ =? _)%nat.
Qed.

(** Events other than a corpus load and a change of day find the cached
    slices as they were. *)
Lemma step_daySlices e c :
  rendered c ->
  (forall cleaned, e <> CsvLoaded cleaned) -> (forall d, e <> ChangeDay d) ->
  daySlices (step e c) = daySlices c.
Proof.
  intros Hr He Hd.
  destruct (handle_keeps_words e c He) as [Hw _].
  pose proof (handle_keeps_day e c He Hd) as Hday.
  destruct (step_keeps_cache e c Hr) as [Hm _].
  - unfold step. rewrite render_state. by rewrite Hw.
  - unfold step. by rewrite render_state.
  - unfold daySlices. by rewrite Hm.
Qed.

(** What a sound, up-to-date memo cell holds. *)
Lemma sound_daySlices c :
  memo_sound c -> rendered c ->
  ordered (daySlices c)
  = daySlice (items (words (state c))) (currentDay (state c))
  /\ shuffled (daySlices c) ≡ₚ ordered (daySlices c).
Proof.
  intros [_ Hm] (m & Em & Hd).
  apply deps_unchanged_spec in Hd as [Hd1 Hd2].
  unfold daySlices. rewrite Em. rewrite <- Hd2. by apply Hm.
Qed.

Lemma sound_views_length c :
  memo_sound c -> rendered c ->
  JS.len (shuffled (daySlices c)) = JS.len (ordered (daySlices c)).
Proof.
  intros Hs Hr. destruct (sound_daySlices c Hs Hr) as [_ Hp].
  unfold JS.len. by rewrite Hp.
Qed.

Lemma session_sound c0 c :
  memo_sound c0 -> rendered c0 -> session c0 c -> memo_sound c /\ rendered c.
Proof.
  intros Hs Hr. induction 1 as [|e c Hc [IH1 IH2] Hen]; [done|].
  split; [by apply step_memo_sound|apply step_rendered].
Qed.

Lemma mount_sound saved g store :
  memo_sound (mount saved g store) /\ rendered (mount saved g store).
Proof.
  split; [|apply render_rendered]. apply render_memo_sound.
  split; [cbn; lia|done].
Qed.

Lemma ui_shown_loaded s : ui_shown s = true -> isLoading s = false.
Proof. unfold ui_shown. by destruct (isLoading s). Qed.

Lemma enabled_user e c :
  (forall cleaned, e <> CsvLoaded cleaned) -> (forall msg, e <> CsvFailed msg) ->
  enabled e c = true -> isLoading (state c) = false.
Proof.
  intros H1 H2 Hen.
  destruct e as [cleaned|msg| | | | | | | | | | |]; cbn [enabled] in Hen;
    [by destruct (H1 cleaned)|by destruct (H2 msg)|..];
    repeat (apply andb_true_iff in Hen as [Hen ?]);
    by destruct (isLoading (state c)).
Qed.

Lemma handle_keeps_loading e c :
  (forall cleaned, e <> CsvLoaded cleaned) -> (forall msg, e <> CsvFailed msg) ->
  isLoading (state (handle e c)) = isLoading (state c)
  /\ totalDays (state (handle e c)) = totalDays (state c).
Proof.
  intros H1 H2.
  destruct e as [cleaned|msg| | | | | |day| | | | |]; cbn [handle];
    [by destruct (H1 cleaned)|by destruct (H2 msg)|done| | | | |done
    |done|done| |done|done].
  - unfold prevWord. by destruct (_ >? _).
  - unfold nextWord. by destruct (_ <? _).
  - unfold addToConfusing. destruct (currentWord c); [|done].
    by destruct (negb _).
  - unfold removeFromConfusing. by destruct (_ && _).
  - unfold toggleAllAnswers. by destruct (_ =? _)%nat.
Qed.

Lemma step_currentWords e c :
  rendered c ->
  (forall cleaned, e <> CsvLoaded cleaned) -> (forall d, e <> ChangeDay d) ->
  currentWords (step e c)
  = if showConfusing (state (handle e c)) then confusingWords (state (handle e c))
    else match viewMode (state (handle e c)) with
         | Card => shuffled (daySlices c)
         | ListView => ordered (daySlices c)
         end.
Proof.
  intros Hr He Hd. unfold currentWords at 1.
  rewrite step_daySlices by done. unfold step. by rewrite render_state.
Qed.

Lemma daySlice_nil {B} (d : Z) : daySlice (@nil B) d = [].
Proof. unfold daySlice, JS.slice. by rewrite drop_nil, take_nil. Qed.

Lemma session_invariant saved g store c :
  session (mount saved g store) c ->
  (isLoading (state c) = true -> state c = initial_state saved)
  /\ totalDays (state c) = dayCount (items (words (state c)))
  /\ (currentDay (state c) = 1 \/ 1 <= currentDay (state c) <= totalDays (state c))
  /\ 0 <= currentIndex (state c)
  /\ (currentIndex (state c) < JS.len (currentWords c)
      \/ currentIndex (state c) = 0).
Proof.
  intros Hc.
  induction Hc as [|e c Hc (IL & IT & ID & I0 & IP) Hen].
  - unfold mount. unfold currentWords. rewrite render_state. cbn.
    repeat split; try done. by left. by right.
  - destruct (session_sound _ _ (proj1 (mount_sound saved g store))
                (proj2 (mount_sound saved g store)) Hc) as [Hs Hr].
    assert (Hst : state (step e c) = state (handle e c)) by apply render_state.
    destruct e as [cleaned|msg| | | | | |day| |idx| | |].
    1: { (* CsvLoaded *)
      cbn [enabled] in Hen. specialize (IL Hen). rewrite Hst. cbn [handle].
      unfold loadCSV_complete. cbn. rewrite IL. cbn.
      repeat split; try done. by left. by right. }
    1: { (* CsvFailed *)
      cbn [enabled] in Hen. specialize (IL Hen).
      rewrite step_currentWords by done. rewrite Hst.
      cbn [handle]. unfold loadCSV_error. cbn. rewrite IL. cbn.
      repeat split; try done. by left. by right. }
    all: match goal with
         | Hen : enabled ?e ?cc = true |- _ =>
             pose proof (enabled_user e cc ltac:(intros ?; discriminate)
                           ltac:(intros ?; discriminate) Hen) as Hload;
             destruct (handle_keeps_loading e cc ltac:(intros ?; discriminate)
                         ltac:(intros ?; discriminate)) as [HL HT];
             destruct (handle_keeps_words e cc ltac:(intros ?; discriminate))
               as [HW _]
         end;
      (split; [rewrite Hst, HL, Hload; done|]);
      (split; [rewrite Hst, HT, HW; done|]).
    all: try (split;
          [rewrite Hst, HT, handle_keeps_day by (intros ?; discriminate);
           exact ID|]).
    all: try rewrite step_currentWords
           by first [exact Hr|intros ?; discriminate].
    all: rewrite ?Hst.
    + (* FlipCard *) done.
    + (* PrevWord *) cbn [handle enabled] in *. unfold prevWord.
      apply andb_true_iff in Hen as [_ Hne]. apply negb_true_iff in Hne.
      apply Z.eqb_neq in Hne.
      destruct (Z.gtb_spec (currentIndex (state c)) 0); [|lia]. cbn.
      split; [lia|left]. destruct IP as [IP|IP]; [|lia].
      unfold currentWords in IP. lia.
    + (* NextWord *) cbn [handle] in *. unfold nextWord.
      destruct (Z.ltb_spec (currentIndex (state c))
                  (JS.len (currentWords c) - 1)) as [Hlt|Hge]; [|done].
      cbn. split; [lia|left]. unfold currentWords in Hlt. lia.
    + (* AddToConfusing *) cbn [handle enabled] in *.
      apply andb_true_iff in Hen as [_ Hsc]. apply negb_true_iff in Hsc.
      unfold addToConfusing. destruct (currentWord c) as [w|]; [|done].
      destruct (negb _); [|done]. cbn. unfold currentWords in IP.
      rewrite Hsc in *. done.
    + (* RemoveFromConfusing *) cbn [handle enabled] in *.
      apply andb_true_iff in Hen as [_ Hsc].
      destruct (removeFromConfusing_state c) as (Hcw & Hi & _ & Hs' & _).
      cbv zeta in Hcw, Hi, Hs'. rewrite Hs', Hsc, Hi, Hcw.
      unfold currentWords in IP. rewrite Hsc in IP.
      set (cw := confusingWords (state c)) in *.
      set (i := currentIndex (state c)) in *.
      assert (Hok : 0 <= i < JS.len cw \/ (cw = [] /\ i = 0)).
      { destruct IP as [IP|IP]; [left; lia|].
        destruct cw; [by right|left]. unfold JS.len. cbn [length]. lia. }
      destruct (remove_deletes_current cw i Hok) as [Hdel Hlen].
      rewrite Hdel.
      assert (0 <= JS.len (delete (Z.to_nat i) cw)) by (unfold JS.len; lia).
      destruct (decide (cw = [])) as [Hnil|Hne].
      * destruct Hok as [Hin|[_ Hz]].
        -- rewrite Hnil in Hin. unfold JS.len in Hin. cbn [length] in Hin. lia.
        -- rewrite Hnil, Hz.
           assert (delete (Z.to_nat 0) (@nil WordRecord) = []) as -> by done.
           split; [done|by right].
      * specialize (Hlen Hne).
        assert (0 <= i < JS.len cw).
        { destruct Hok as [?|[? _]]; done. }
        destruct (Z.geb_spec i (JS.len (delete (Z.to_nat i) cw)));
          destruct (Z.eqb_spec (JS.len (delete (Z.to_nat i) cw)) 0);
          cbn [andb negb]; lia.
    + (* ChangeDay *) cbn [handle enabled] in *.
      repeat (apply andb_true_iff in Hen as [Hen ?]).
      cbn. split; [right; lia|]. split; [lia|by right].
    + (* ToggleConfusingMode *) cbn. split; [lia|by right].
    + (* ToggleAnswer *) done.
    + (* ToggleAllAnswers *) cbn [handle]. unfold toggleAllAnswers.
      by destruct (_ =? _)%nat.
    + (* ToggleDirection *) done.
    + (* ToggleViewMode *) cbn. split; [done|].
      unfold currentWords in IP.
      pose proof (sound_views_length c Hs Hr) as Hlen.
      destruct (showConfusing (state c)); [done|].
      destruct (viewMode (state c)); cbn; [by rewrite <- Hlen|by rewrite Hlen].
Qed.

Lemma get_in_range {B} (l : list B) (i : Z) :
  0 <= i < JS.len l -> is_Some (JS.get l i).
Proof.
  intros Hi. unfold JS.get, JS.len in *.
  destruct (Z.ltb_spec i 0); [lia|]. apply lookup_lt_is_Some_2. lia.
Qed.

(** X1 (the position stays on a word). Along every session, from the
    mount through any events the rendered controls allow, the position
    is never negative; when the active word set is not empty the
    position is below its length and the current word exists; when it
    is empty the position is 0 and there is no current word. *)
Theorem position_always_valid saved g store c :
  session (mount saved g store) c ->
  0 <= currentIndex (state c)
  /\ (currentWords c <> [] ->
      currentIndex (state c) < JS.len (currentWords c)
      /\ is_Some (currentWord c))
  /\ (currentWords c = [] ->
      currentIndex (state c) = 0 /\ currentWord c = None).
Proof.
  intros Hc. destruct (session_invariant _ _ _ _ Hc) as (_ & _ & _ & I0 & IP).
  split; [done|]. split.
  - intros Hne.
    assert (Hlt : currentIndex (state c) < JS.len (currentWords c)).
    { destruct IP as [IP|IP]; [done|]. rewrite IP. unfold JS.len.
      destruct (currentWords c); [done|]. cbn [length]. lia. }
    split; [done|]. apply get_in_range. lia.
  - intros Hnil. rewrite Hnil in IP. unfold JS.len in IP. cbn [length] in IP.
    split; [lia|]. unfold currentWord. rewrite Hnil. unfold JS.get.
    by destruct (_ <? _).
Qed.

Lemma position_always_valid_witness :
  let c := step NextWord (sample_app 3) in
  currentIndex (state c) < JS.len (currentWords c)
  /\ is_Some (currentWord c).
Proof.
  intros c.
  assert (Hc : session (mount [] sample_rng ∅) c).
  { apply session_step; [|reflexivity].
    apply session_step; [apply session_start|reflexivity]. }
  destruct (position_always_valid _ _ _ _ Hc) as (_ & Hne & _).
  apply Hne. by vm_compute.
Defined.

(** X2 (the day stays among the offered ones). Along every session
    [totalDays] is the number of pages of the corpus, the current day is
    at least 1 and, for a non-empty corpus, at most [totalDays]; outside
    confusing mode the active word set is then empty only when the
    corpus is. *)
Theorem day_always_offered saved g store c :
  session (mount saved g store) c ->
  totalDays (state c) = dayCount (items (words (state c)))
  /\ 1 <= currentDay (state c)
  /\ (items (words (state c)) <> [] ->
      currentDay (state c) <= totalDays (state c))
  /\ (showConfusing (state c) = false ->
      (currentWords c = [] <-> items (words (state c)) = [])).
Proof.
  intros Hc. destruct (session_invariant _ _ _ _ Hc) as (_ & IT & ID & _ & _).
  destruct (session_sound _ _ (proj1 (mount_sound saved g store))
              (proj2 (mount_sound saved g store)) Hc) as [Hs Hr].
  destruct (sound_daySlices c Hs Hr) as [Hord Hperm].
  pose proof (dayCount_spec (items (words (state c)))) as Hdc.
  assert (Hpos : items (words (state c)) <> [] ->
                 1 <= totalDays (state c)).
  { intros Hne. rewrite IT. unfold JS.len in Hdc.
    destruct (items (words (state c))); [done|]. cbn [length] in Hdc. lia. }
  split; [done|]. split; [lia|]. split; [intros Hne; specialize (Hpos Hne); lia|].
  intros Hsc.
  assert (Hcw : currentWords c = [] <-> ordered (daySlices c) = []).
  { unfold currentWords. rewrite Hsc. destruct (viewMode (state c)); [|done].
    split; intros Hnil.
    - rewrite Hnil in Hperm. by apply Permutation_nil_l in Hperm.
    - rewrite Hnil in Hperm. by apply Permutation_nil_r in Hperm. }
  rewrite Hcw, Hord. split.
  - intros Hnil. destruct (decide (items (words (state c)) = [])) as [|Hne];
      [done|]. exfalso. specialize (Hpos Hne).
    apply (daySlice_nonempty_in_range (items (words (state c)))
             (currentDay (state c))); [rewrite <- IT; lia|done].
  - intros ->. apply daySlice_nil.
Qed.

Lemma day_always_offered_witness :
  let c := step (ChangeDay 3) (sample_app 250) in
  currentDay (state c) <= totalDays (state c)
  /\ currentWords c <> [].
Proof.
  intros c.
  assert (Hc : session (mount [] sample_rng ∅) c).
  { apply session_step; [|reflexivity].
    apply session_step; [apply session_start|reflexivity]. }
  destruct (day_always_offered _ _ _ _ Hc) as (_ & _ & Hle & Hiff).
  assert (Hne : items (words (state c)) <> []) by (by vm_compute).
  split; [by apply Hle|]. intros Hnil. apply Hne. by apply Hiff.
Defined.

Lemma step_move_facts e c :
  rendered c -> e = NextWord \/ e = PrevWord ->
  rendered (step e c)
  /\ currentWords (step e c) = currentWords c
  /\ currentIndex (state (step e c))
     = match e with
       | NextWord =>
           if currentIndex (state c) <? JS.len (currentWords c) - 1
           then currentIndex (state c) + 1 else currentIndex (state c)
       | _ =>
           if currentIndex (state c) >? 0
           then currentIndex (state c) - 1 else currentIndex (state c)
       end.
Proof.
  intros Hr He. split; [apply step_rendered|].
  assert (H1 : forall cleaned, e <> CsvLoaded cleaned)
    by (intros ?; destruct He; by subst).
  assert (H2 : forall d, e <> ChangeDay d)
    by (intros ?; destruct He; by subst).
  rewrite step_currentWords by done. unfold step. rewrite render_state.
  unfold currentWords.
  destruct He as [-> | ->]; cbn [handle]; unfold nextWord, prevWord.
  - by destruct (_ <? _).
  - by destruct (_ >? _).
Qed.

(** X3 (the arrows walk the word set). From a rendered component at a
    position [i] inside a word set of [n] words, [k] presses of next
    lead to position [min (i + k) (n - 1)] and [k] presses of prev to
    [max (i - k) 0], the word set staying as it is; next then prev
    returns to [i] unless [i] is the last position, and prev then next
    returns to [i] unless [i] is the first. *)
Theorem arrows_walk_the_set (c0 : Component) (k : nat) :
  let c := render c0 in
  let i := currentIndex (state c) in
  let n := JS.len (currentWords c) in
  0 <= i < n ->
  (currentIndex (state (run (replicate k NextWord) c))
   = Z.min (i + Z.of_nat k) (n - 1)
   /\ currentWords (run (replicate k NextWord) c) = currentWords c)
  /\ (currentIndex (state (run (replicate k PrevWord) c))
      = Z.max (i - Z.of_nat k) 0
      /\ currentWords (run (replicate k PrevWord) c) = currentWords c)
  /\ (i < n - 1 ->
      currentIndex (state (run [NextWord; PrevWord] c)) = i)
  /\ (0 < i ->
      currentIndex (state (run [PrevWord; NextWord] c)) = i).
Proof.
  intros c i n Hi. pose proof (render_rendered c0) as Hr. fold c in Hr.
  unfold i, n in *. clearbody c. clear i n c0.
  assert (Hnext : forall k c, rendered c ->
    0 <= currentIndex (state c) < JS.len (currentWords c) ->
    currentIndex (state (run (replicate k NextWord) c))
    = Z.min (currentIndex (state c) + Z.of_nat k) (JS.len (currentWords c) - 1)
    /\ currentWords (run (replicate k NextWord) c) = currentWords c).
  { clear. induction k as [|k IH]; intros c Hr Hi.
    - cbn. split; [lia|done].
    - cbn [replicate run foldl].
      destruct (step_move_facts NextWord c Hr (or_introl eq_refl))
        as (Hr' & Hw & Hidx).
      destruct (IH (step NextWord c) Hr') as [H1 H2].
      + rewrite Hw, Hidx. destruct (Z.ltb_spec (currentIndex (state c))
          (JS.len (currentWords c) - 1)); lia.
      + unfold run in *. rewrite H1, H2, Hw, Hidx. split; [|done].
        destruct (Z.ltb_spec (currentIndex (state c))
          (JS.len (currentWords c) - 1)); lia. }
  assert (Hprev : forall k c, rendered c ->
    0 <= currentIndex (state c) < JS.len (currentWords c) ->
    currentIndex (state (run (replicate k PrevWord) c))
    = Z.max (currentIndex (state c) - Z.of_nat k) 0
    /\ currentWords (run (replicate k PrevWord) c) = currentWords c).
  { clear. induction k as [|k IH]; intros c Hr Hi.
    - cbn. split; [lia|done].
    - cbn [replicate run foldl].
      destruct (step_move_facts PrevWord c Hr (or_intror eq_refl))
        as (Hr' & Hw & Hidx).
      destruct (IH (step PrevWord c) Hr') as [H1 H2].
      + rewrite Hw, Hidx.
        destruct (Z.gtb_spec (currentIndex (state c)) 0); lia.
      + unfold run in *. rewrite H1, H2, Hw, Hidx. split; [|done].
        destruct (Z.gtb_spec (currentIndex (state c)) 0); lia. }
  split; [by apply Hnext|]. split; [by apply Hprev|].
  destruct (step_move_facts NextWord c Hr (or_introl eq_refl))
    as (Hrn & Hwn & Hin).
  destruct (step_move_facts PrevWord c Hr (or_intror eq_refl))
    as (Hrp & Hwp & Hip).
  destruct (step_move_facts PrevWord _ Hrn (or_intror eq_refl))
    as (_ & _ & Hnp).
  destruct (step_move_facts NextWord _ Hrp (or_introl eq_refl))
    as (_ & _ & Hpn).
  split; intros Hlt; cbn [run foldl].
  - rewrite Hnp, Hin.
    destruct (Z.ltb_spec (currentIndex (state c))
      (JS.len (currentWords c) - 1)); [|lia].
    destruct (Z.gtb_spec (currentIndex (state c) + 1) 0); lia.
  - rewrite Hpn, Hwp, Hip.
    destruct (Z.gtb_spec (currentIndex (state c)) 0); [|lia].
    destruct (Z.ltb_spec (currentIndex (state c) - 1)
      (JS.len (currentWords c) - 1)); lia.
Qed.

Lemma arrows_walk_the_set_witness :
  let c := render (sample_app 5) in
  currentIndex (state (run (replicate 3 NextWord) c)) = 3
  /\ currentIndex (state (run (replicate 9 NextWord) c)) = 4
  /\ currentIndex (state (run [NextWord; PrevWord] c)) = 0.
Proof.
  intros c.
  assert (Hi : 0 <= currentIndex (state c) < JS.len (currentWords c)).
  { by vm_compute. }
  destruct (arrows_walk_the_set (sample_app 5) 3 Hi) as ([H3 _] & _ & _).
  destruct (arrows_walk_the_set (sample_app 5) 9 Hi) as ([H9 _] & _ & Hnp & _).
  split; [exact H3|]. split; [exact H9|]. apply Hnp. by vm_compute.
Defined.

(** X4 (both views show the words of the day). Along every session,
    outside confusing mode, the list view shows the slice of the corpus
    for the current day in corpus order and the card view shows a
    rearrangement of the same slice; switching the view changes the
    order at most, never the words or their number. *)
Theorem views_show_the_day saved g store c :
  session (mount saved g store) c ->
  showConfusing (state c) = false ->
  let day_words := daySlice (items (words (state c))) (currentDay (state c)) in
  (viewMode (state c) = ListView -> currentWords c = day_words)
  /\ (viewMode (state c) = Card -> currentWords c ≡ₚ day_words)
  /\ currentWords (step ToggleViewMode c) ≡ₚ currentWords c
  /\ JS.len (currentWords (step ToggleViewMode c)) = JS.len (currentWords c).
Proof.
  intros Hc Hsc day_words.
  destruct (session_sound _ _ (proj1 (mount_sound saved g store))
              (proj2 (mount_sound saved g store)) Hc) as [Hs Hr].
  destruct (sound_daySlices c Hs Hr) as [Hord Hperm]. fold day_words in Hord.
  assert (Hcw : currentWords c
    = match viewMode (state c) with
      | Card => shuffled (daySlices c) | ListView => ordered (daySlices c)
      end) by (unfold currentWords; by rewrite Hsc).
  assert (Htog : currentWords (step ToggleViewMode c) ≡ₚ currentWords c).
  { unfold currentWords at 1.
    rewrite step_daySlices by first [done|intros ?; discriminate].
    unfold step. rewrite render_state. cbn. rewrite Hsc, Hcw.
    by destruct (viewMode (state c)). }
  split; [|split; [|split]].
  - intros Hv. by rewrite Hcw, Hv.
  - intros Hv. by rewrite Hcw, Hv, Hperm, Hord.
  - done.
  - unfold JS.len. by rewrite Htog.
Qed.

Lemma views_show_the_day_witness :
  let c := sample_app 5 in
  currentWords c ≡ₚ sample_corpus 5
  /\ currentWords (step ToggleViewMode c) ≡ₚ currentWords c.
Proof.
  intros c.
  assert (Hc : session (mount [] sample_rng ∅) c).
  { apply session_step; [apply session_start|reflexivity]. }
  destruct (views_show_the_day _ _ _ _ Hc eq_refl) as (_ & Hcard & Htog & _).
  split; [by apply Hcard|done].
Defined.

(** X5 (hiding and showing answers). [toggleAnswer idx] changes the
    membership of [idx] in the hidden set and of no other index, and
    twice in a row it restores the component. [toggleAllAnswers] hides
    exactly the indices [0 .. n-1] of the [n] active words, unless the
    hidden set already has [n] members, in which case it shows all; so
    hiding all and toggling again shows all. It leaves the word set
    alone. *)
Theorem answer_toggles (c : Component) :
  let hidden := hiddenAnswers (state c) in
  let n := length (currentWords c) in
  (forall idx j,
     j ∈ hiddenAnswers (state (toggleAnswer idx c))
     <-> (j = idx /\ idx ∉ hidden) \/ (j <> idx /\ j ∈ hidden))
  /\ (forall idx, toggleAnswer idx (toggleAnswer idx c) = c)
  /\ (size hidden <> n ->
      (forall j, j ∈ hiddenAnswers (state (toggleAllAnswers c)) <-> (j < n)%nat)
      /\ size (hiddenAnswers (state (toggleAllAnswers c))) = n
      /\ hiddenAnswers (state (toggleAllAnswers (toggleAllAnswers c))) = ∅)
  /\ (size hidden = n ->
      hiddenAnswers (state (toggleAllAnswers c)) = ∅)
  /\ currentWords (toggleAllAnswers c) = currentWords c.
Proof.
  intros hidden n.
  assert (Hcw : currentWords (toggleAllAnswers c) = currentWords c).
  { unfold toggleAllAnswers. by destruct (_ =? _)%nat. }
  split; [|split; [|split; [|split]]].
  - intros idx j. cbn. fold hidden.
    destruct (decide (idx ∈ hidden)) as [Hin|Hnin].
    + rewrite elem_of_difference, elem_of_singleton. tauto.
    + rewrite elem_of_union, elem_of_singleton.
      split; [intros [Hj| ->]|intros [[-> _]|[_ Hj]]]; try tauto.
      right. split; [by intros ->|done].
  - intros idx. unfold toggleAnswer, with_state.
    destruct c as [s m g' st nid]. destruct s as [? ? ? ? ? ? ? ? ? ? ? H].
    cbn. f_equal. unfold setHiddenAnswers. cbn. f_equal.
    apply set_eq. intros j.
    destruct (decide (idx ∈ H)) as [Hin|Hnin].
    + rewrite decide_False by (rewrite elem_of_difference, elem_of_singleton; tauto).
      rewrite elem_of_union, elem_of_difference, elem_of_singleton.
      destruct (decide (j = idx)) as [->|Hne]; tauto.
    + rewrite decide_True by (rewrite elem_of_union, elem_of_singleton; tauto).
      rewrite elem_of_difference, elem_of_union, elem_of_singleton.
      destruct (decide (j = idx)) as [->|Hne]; tauto.
  - intros Hne.
    assert (Hall : hiddenAnswers (state (toggleAllAnswers c))
                   = list_to_set (seq 0 n)).
    { unfold toggleAllAnswers. fold hidden n.
      by rewrite (proj2 (Nat.eqb_neq _ _) Hne). }
    assert (Hsize : size (hiddenAnswers (state (toggleAllAnswers c))) = n).
    { rewrite Hall, size_list_to_set by apply NoDup_seq. apply length_seq. }
    split; [|split; [done|]].
    + intros j. rewrite Hall, elem_of_list_to_set, elem_of_seq. lia.
    + unfold toggleAllAnswers at 1. rewrite Hcw, Hsize. fold n.
      by rewrite Nat.eqb_refl.
  - intros Heq. unfold toggleAllAnswers. fold hidden n.
    by rewrite (proj2 (Nat.eqb_eq _ _) Heq).
  - done.
Qed.

Lemma answer_toggles_witness :
  let c := step ToggleViewMode (sample_app 3) in
  (1%nat ∈ hiddenAnswers (state (toggleAllAnswers c)))
  /\ hiddenAnswers (state (toggleAllAnswers (toggleAllAnswers c))) = ∅
  /\ hiddenAnswers
       (state (toggleAllAnswers (toggleAnswer 0 (toggleAnswer 0 c)))) <> ∅.
Proof.
  intros c.
  destruct (answer_toggles c) as (_ & Htwice & Hall & _).
  destruct Hall as (Hin & _ & Hoff); [by vm_compute|].
  split; [apply Hin; vm_compute; lia|]. split; [done|].
  rewrite Htwice. intros Hnil.
  assert (H1 : 1%nat ∈ hiddenAnswers (state (toggleAllAnswers c)))
    by (apply Hin; vm_compute; lia).
  rewrite Hnil in H1. by apply not_elem_of_empty in H1.
Defined.

Lemma or_empty_truthy v :
  or_empty v <> CNull /\ or_empty v <> CBool false /\ or_empty v <> CNum 0.
Proof.
  destruct v as [[|[]|n|s]|]; cbn; try done.
  destruct (Z.eqb_spec n 0); [done|]. repeat split; congruence.
Qed.



Lemma ui_hidden_disabled e c :
  ui_shown (state c) = false -> isLoading (state c) = false ->
  enabled e c = false.
Proof.
  intros Hui Hl. destruct e; cbn [enabled]; by rewrite ?Hui, ?Hl.
Qed.

Lemma session_loaded c0 c :
  session c0 c -> isLoading (state c0) = false ->
  words (state c) = words (state c0)
  /\ totalDays (state c) = totalDays (state c0)
  /\ isLoading (state c) = false.
Proof.
  intros Hc H0. induction Hc as [|e c Hc (IH1 & IH2 & IH3) Hen]; [done|].
  assert (H1 : forall cleaned, e <> CsvLoaded cleaned).
  { intros cleaned ->. cbn in Hen. congruence. }
  assert (H2 : forall msg, e <> CsvFailed msg).
  { intros msg ->. cbn in Hen. congruence. }
  unfold step. rewrite render_state.
  destruct (handle_keeps_words e c H1) as [-> _].
  destruct (handle_keeps_loading e c H1 H2) as [-> ->]. done.
Qed.

(** X7 (the corpus is loaded once). Along every session: while the
    load is pending the state is the initial one and only the end of
    the load can happen; once it is over, the corpus, the number of
    days and [isLoading] never change again; and once an error message
    is set no event is enabled, so the session stays where it is. *)
Theorem load_happens_once saved g store c :
  session (mount saved g store) c ->
  (isLoading (state c) = true ->
     state c = initial_state saved
     /\ forall e, enabled e c = true ->
          (exists cleaned, e = CsvLoaded cleaned) \/ (exists msg, e = CsvFailed msg))
  /\ (isLoading (state c) = false ->
      forall c', session c c' ->
        words (state c') = words (state c)
        /\ totalDays (state c') = totalDays (state c)
        /\ isLoading (state c') = false)
  /\ (error (state c) <> "" ->
      (forall e, enabled e c = false) /\ forall c', session c c' -> c' = c).
Proof.
  intros Hc. destruct (session_invariant _ _ _ _ Hc) as (IL & _).
  split; [|split].
  - intros Hl. split; [by apply IL|]. intros e Hen.
    destruct e as [cleaned|msg| | | | | | | | | | |];
      [left; by exists cleaned|right; by exists msg|..];
      apply enabled_user in Hen; congruence.
  - intros Hl c' Hc'. by apply (session_loaded c c').
  - intros He.
    assert (Hl : isLoading (state c) = false).
    { destruct (isLoading (state c)) eqn:E; [|done].
      rewrite (IL eq_refl) in He. done. }
    assert (Hui : ui_shown (state c) = false).
    { unfold ui_shown. rewrite Hl. cbn.
      by apply String.eqb_neq. }
    assert (Hdis : forall e, enabled e c = false)
      by (intros e; by apply ui_hidden_disabled).
    split; [done|]. intros c' Hc'.
    induction Hc' as [|e c' Hc' IH Hen]; [done|].
    rewrite IH, Hdis in Hen. done.
Qed.

Lemma load_happens_once_witness :
  let c := step (CsvFailed "no file") (mount [] sample_rng ∅) in
  enabled ToggleViewMode c = false
  /\ enabled (CsvLoaded (sample_corpus 5)) c = false.
Proof.
  intros c.
  assert (Hc : session (mount [] sample_rng ∅) c).
  { apply session_step; [apply session_start|reflexivity]. }
  destruct (load_happens_once _ _ _ _ Hc) as (_ & _ & H).
  destruct H as [H _]; [done|]. split; apply H.
Defined.

Lemma stringify_app r t :
  stringify r +:+ t = String "{" (members_text r +:+ String "}" t).
Proof.
  unfold stringify. by rewrite string_app_cons, string_app_assoc.
Qed.

Lemma elements_text_cons r l t :
  elements_text (r :: l) +:+ String "]" t
  = stringify r +:+ match l with
                    | [] => String "]" t
                    | _ => String "," (elements_text l +:+ String "]" t)
                    end.
Proof.
  destruct l as [|r' l]; [done|]. cbn [elements_text].
  by rewrite string_app_assoc, string_app_cons.
Qed.

Lemma elements_text_inj l1 : forall l2 t1 t2,
  elements_text l1 +:+ String "]" t1 = elements_text l2 +:+ String "]" t2 ->
  l1 = l2 /\ t1 = t2.
Proof.
  induction l1 as [|r1 l1 IH]; intros [|r2 l2] t1 t2 H.
  - cbn [elements_text] in H. rewrite !string_app_nil in H. by injection H.
  - rewrite elements_text_cons, stringify_app in H. discriminate H.
  - rewrite elements_text_cons, stringify_app in H. discriminate H.
  - rewrite !elements_text_cons, !stringify_app in H. injection H as H.
    apply members_text_inj in H as [-> H].
    destruct l1 as [|a l1], l2 as [|b l2]; try discriminate H.
    + by injection H as ->.
    + injection H as H. by destruct (IH (b :: l2) t1 t2 H) as [-> ->].
Qed.

Lemma stringify_array_inj l1 l2 :
  stringify_array l1 = stringify_array l2 -> l1 = l2.
Proof.
  unfold stringify_array. intros H. injection H as H.
  by destruct (elements_text_inj _ _ _ _ H).
Qed.

Lemma slice_sublist {B} (l : list B) (s e : Z) : sublist (JS.slice l s e) l.
Proof.
  unfold JS.slice. etrans; [apply sublist_take|apply sublist_drop].
Qed.

Lemma filter_index_ne_sublist {B} (l : list B) (st k : Z) :
  sublist (JS.filter_index_ne l st k) l.
Proof.
  revert st. induction l as [|x l IH]; intros st; [done|].
  cbn [JS.filter_index_ne].
  destruct (st =? k).
  - by apply sublist_cons.
  - by apply sublist_skip.
Qed.

(** What an event does to the confusing set and to its stored copy. *)
Lemma handle_confusing e c :
  let cw := confusingWords (state c) in
  let cw' := confusingWords (state (handle e c)) in
  (cw' = cw /\ localStorage (handle e c) = localStorage c)
  \/ (localStorage (handle e c)
      = (<[storage_key := stringify_array cw']> (localStorage c))
      /\ ((exists w, currentWord c = Some w /\ (w ∉ cw) /\ cw' = cw ++ [w])
          \/ cw' = JS.filter_index_ne cw 0 (currentIndex (state c)))).
Proof.
  intros cw cw'. unfold cw, cw'.
  destruct e as [cleaned|msg| | | | | |day| |idx| | |]; cbn [handle];
    try (by left).
  - left. unfold prevWord. by destruct (_ >? _).
  - left. unfold nextWord. by destruct (_ <? _).
  - unfold addToConfusing. destruct (currentWord c) as [w|]; [|by left].
    rewrite some_stringify_eq. case_bool_decide as Hin; [by left|].
    right. cbn. split; [done|]. left. by exists w.
  - right. destruct (removeFromConfusing_state c) as (Hcw & _ & _ & _ & Hst & _).
    cbv zeta in Hcw, Hst. rewrite Hst, Hcw. split; [done|by right].
  - left. unfold toggleAllAnswers. by destruct (_ =? _)%nat.
Qed.

(** The stored copy of the confusing set along a session. *)
Lemma session_storage saved g store c :
  session (mount saved g store) c ->
  ((confusingWords (state c) = saved /\ localStorage c = store)
   \/ localStorage c !! storage_key
      = Some (stringify_array (confusingWords (state c))))
  /\ (forall k, k <> storage_key -> localStorage c !! k = store !! k).
Proof.
  intros Hc. induction Hc as [|e c Hc [IH1 IH2] Hen].
  - unfold mount. rewrite render_state, render_localStorage. split; [by left|done].
  - unfold step. rewrite render_state, render_localStorage.
    destruct (handle_confusing e c) as [[-> ->]|[-> _]]; [done|].
    split; [right; apply lookup_insert_eq|].
    intros k Hk. rewrite lookup_insert_ne by done. by apply IH2.
Qed.

Lemma session_storage_synced saved g store c :
  store !! storage_key = Some (stringify_array saved) ->
  session (mount saved g store) c ->
  localStorage c !! storage_key
  = Some (stringify_array (confusingWords (state c))).
Proof.
  intros Hstore Hc.
  by destruct (session_storage _ _ _ _ Hc) as [[[-> ->]|H] _].
Qed.

(** X8 (no duplicates in the confusing set). If the set read at mount
    has no duplicates, then along every session the confusing set has
    none, and no two of its members have the same JSON text. *)
Theorem confusing_set_no_duplicates saved g store c :
  NoDup saved ->
  session (mount saved g store) c ->
  NoDup (confusingWords (state c))
  /\ NoDup (stringify <$> confusingWords (state c)).
Proof.
  intros Hnd Hc.
  assert (H : NoDup (confusingWords (state c))).
  { induction Hc as [|e c Hc IH Hen].
    - unfold mount. by rewrite render_state.
    - unfold step. rewrite render_state.
      destruct (handle_confusing e c) as [[-> _]|[_ [(w & _ & Hw & ->)| ->]]].
      + done.
      + apply NoDup_app. split; [done|]. split; [|apply NoDup_singleton].
        intros x Hx ->%list_elem_of_singleton. done.
      + apply (sublist_NoDup _ _ IH), filter_index_ne_sublist. }
  split; [done|].
  by apply (@NoDup_fmap_2 _ _ stringify stringify_inj).
Qed.

Lemma confusing_set_no_duplicates_witness :
  let c := step AddToConfusing (step AddToConfusing (sample_app 5)) in
  length (confusingWords (state c)) = 1%nat
  /\ NoDup (stringify <$> confusingWords (state c)).
Proof.
  intros c. split; [reflexivity|].
  assert (Hc : session (mount [] sample_rng ∅) c).
  { do 3 (apply session_step; [|reflexivity]). apply session_start. }
  by destruct (confusing_set_no_duplicates [] sample_rng ∅ c
                 (NoDup_nil_2) Hc).
Defined.

(** X9 (the confusing set is persisted). Along every session, either
    the confusing set and the storage are still those of the mount, or
    the storage holds under "confusingWords" the JSON text of the
    current confusing set; no other key of the storage is ever written;
    so when the set read at mount is the one in the storage, the stored
    text is that of the current set at every point of the session. *)
Theorem confusing_set_persisted saved g store c :
  session (mount saved g store) c ->
  ((confusingWords (state c) = saved /\ localStorage c = store)
   \/ localStorage c !! storage_key
      = Some (stringify_array (confusingWords (state c))))
  /\ (forall k, k <> storage_key -> localStorage c !! k = store !! k)
  /\ (store !! storage_key = Some (stringify_array saved) ->
      localStorage c !! storage_key
      = Some (stringify_array (confusingWords (state c)))).
Proof.
  intros Hc. destruct (session_storage _ _ _ _ Hc) as [H1 H2].
  split; [done|]. split; [done|].
  intros Hstore. by apply (session_storage_synced saved g store).
Qed.

Lemma confusing_set_persisted_witness :
  let c := step RemoveFromConfusing
             (step ToggleConfusingMode (step AddToConfusing (sample_app 5))) in
  localStorage c !! storage_key = Some "[]"
  /\ confusingWords (state c) = [].
Proof.
  intros c.
  assert (Hc : session (mount [] sample_rng ∅) c).
  { do 4 (apply session_step; [|reflexivity]). apply session_start. }
  destruct (confusing_set_persisted _ _ _ _ Hc) as ([[H _]|H] & _ & _).
  - split; [reflexivity|exact H].
  - split; [exact H|reflexivity].
Defined.

(** X10 (the stored text identifies the set). For two sessions, each
    mounted on a storage that holds the text of its initial set: if
    their storages hold the same text under "confusingWords", their
    confusing sets are the same list of records. *)
Theorem stored_copy_determines_set saved1 g1 store1 c1 saved2 g2 store2 c2 :
  store1 !! storage_key = Some (stringify_array saved1) ->
  store2 !! storage_key = Some (stringify_array saved2) ->
  session (mount saved1 g1 store1) c1 ->
  session (mount saved2 g2 store2) c2 ->
  localStorage c1 !! storage_key = localStorage c2 !! storage_key ->
  confusingWords (state c1) = confusingWords (state c2).
Proof.
  intros H1 H2 Hc1 Hc2 Heq.
  rewrite (session_storage_synced _ _ _ _ H1 Hc1) in Heq.
  rewrite (session_storage_synced _ _ _ _ H2 Hc2) in Heq.
  apply stringify_array_inj. congruence.
Qed.

Lemma stored_copy_determines_set_witness :
  let store := {[ storage_key := "[]" ]} : gmap string string in
  let c0 := step (CsvLoaded (sample_corpus 5)) (mount [] sample_rng store) in
  let c1 := step AddToConfusing c0 in
  let c2 := step AddToConfusing (step ToggleDirection c1) in
  confusingWords (state c1) = confusingWords (state c2).
Proof.
  intros store c0 c1 c2.
  assert (Hc1 : session (mount [] sample_rng store) c1).
  { do 2 (apply session_step; [|reflexivity]). apply session_start. }
  assert (Hc2 : session (mount [] sample_rng store) c2).
  { do 2 (apply session_step; [|reflexivity]). exact Hc1. }
  apply (stored_copy_determines_set [] sample_rng store c1
           [] sample_rng store c2); [reflexivity|reflexivity|exact Hc1
           |exact Hc2|by vm_compute].
Defined.

(** X11 (where confusing words come from). Along every session, each
    member of the confusing set was in the set read at mount or is a
    record of the loaded corpus. *)
Theorem confusing_words_origin saved g store c :
  session (mount saved g store) c ->
  forall w, w ∈ confusingWords (state c) ->
    w ∈ saved \/ w ∈ items (words (state c)).
Proof.
  intros Hc. induction Hc as [|e c Hc IH Hen].
  - unfold mount. rewrite render_state. intros w Hw. by left.
  - destruct (session_invariant _ _ _ _ Hc) as (IL & _).
    destruct (session_sound _ _ (proj1 (mount_sound saved g store))
                (proj2 (mount_sound saved g store)) Hc) as [Hs Hr].
    destruct (sound_daySlices c Hs Hr) as [Hord Hperm].
    unfold step. rewrite render_state.
    destruct (decide (isLoading (state c) = true)) as [Hl|Hl].
    + (* nothing but the load can happen *)
      intros w Hw. left.
      assert (He : confusingWords (state (handle e c)) = saved).
      { destruct e as [cleaned|msg| | | | | |day| |idx| | |];
          try (apply enabled_user in Hen; [congruence|intros ?; discriminate..]);
          cbn [handle]; unfold loadCSV_complete, loadCSV_error; cbn;
          by rewrite (IL Hl). }
      by rewrite He in Hw.
    + assert (He : forall cleaned, e <> CsvLoaded cleaned).
      { intros cleaned ->. cbn in Hen. congruence. }
      destruct (handle_keeps_words e c He) as [-> _].
      destruct (handle_confusing e c) as [[-> _]|[_ [(w' & Hcur & _ & ->)| ->]]].
      * done.
      * intros w [Hw| ->%list_elem_of_singleton]%elem_of_app; [by apply IH|].
        apply get_elem_of in Hcur. unfold currentWords in Hcur.
        destruct (showConfusing (state c)); [by apply IH|].
        right.
        assert (Hin : w' ∈ ordered (daySlices c)).
        { destruct (viewMode (state c)); [by rewrite <- Hperm|done]. }
        rewrite Hord in Hin.
        eapply elem_of_sublist; [exact Hin|apply slice_sublist].
      * intros w Hw. apply IH.
        eapply elem_of_sublist; [exact Hw|apply filter_index_ne_sublist].
Qed.

Lemma confusing_words_origin_witness :
  let c := step AddToConfusing (step NextWord (sample_app 5)) in
  length (confusingWords (state c)) = 1%nat
  /\ Forall (fun w => w ∈ sample_corpus 5) (confusingWords (state c)).
Proof.
  intros c. split; [reflexivity|].
  assert (Hc : session (mount [] sample_rng ∅) c).
  { do 3 (apply session_step; [|reflexivity]). apply session_start. }
  apply Forall_forall. intros w Hw.
  destruct (confusing_words_origin _ _ _ _ Hc w Hw) as [H|H]; [|exact H].
  by apply elem_of_nil in H.
Defined.

(** X12 (into confusing mode and back). From a rendered component,
    [toggleConfusingMode] switches the mode and moves to position 0,
    showing the confusing set when it enters the mode; a second toggle
    shows the same words in the same order as before the first, with no
    new shuffle and nothing written to the storage: the state is the
    one before, at position 0, unflipped, with no hidden answers. *)
Theorem confusing_mode_round_trip (c : Component) :
  rendered c ->
  let c1 := step ToggleConfusingMode c in
  let c2 := step ToggleConfusingMode c1 in
  showConfusing (state c1) = negb (showConfusing (state c))
  /\ (showConfusing (state c) = false ->
      currentWords c1 = confusingWords (state c))
  /\ currentIndex (state c1) = 0
  /\ currentWords c2 = currentWords c
  /\ state c2
     = setHiddenAnswers ∅ (setIsFlipped false (setCurrentIndex 0 (state c)))
  /\ rng c2 = rng c
  /\ localStorage c2 = localStorage c.
Proof.
  intros Hr c1 c2.
  assert (E1 : c1 = step ToggleConfusingMode c) by done.
  assert (E2 : c2 = step ToggleConfusingMode c1) by done.
  clearbody c2. clearbody c1.
  assert (Hr1 : rendered c1) by (rewrite E1; apply step_rendered).
  assert (Hs1 : state c1 = state (toggleConfusingMode c))
    by (rewrite E1; apply render_state).
  assert (Hs2 : state c2 = state (toggleConfusingMode c1))
    by (rewrite E2; apply render_state).
  assert (Hd1 : daySlices c1 = daySlices c).
  { rewrite E1. apply step_daySlices; first [done|intros ?; discriminate]. }
  assert (Hg1 : rng c1 = rng c).
  { rewrite E1.
    apply (step_keeps_cache ToggleConfusingMode c Hr); by rewrite <- E1, Hs1. }
  assert (Hg2 : rng c2 = rng c1).
  { rewrite E2.
    apply (step_keeps_cache ToggleConfusingMode c1 Hr1); by rewrite <- E2, Hs2. }
  split; [by rewrite Hs1|].
  split.
  { intros Hsc. rewrite E1.
    rewrite step_currentWords by first [done|intros ?; discriminate].
    cbn. by rewrite Hsc. }
  split; [by rewrite Hs1|].
  split.
  { rewrite E2.
    rewrite step_currentWords by first [done|intros ?; discriminate].
    rewrite Hd1. cbn. rewrite Hs1. cbn. rewrite negb_involutive.
    reflexivity. }
  split.
  { rewrite Hs2. cbn. rewrite Hs1. cbn. rewrite negb_involutive.
    by destruct (state c). }
  split; [congruence|].
  rewrite E2, E1. unfold step. rewrite render_localStorage. cbn.
  by rewrite render_localStorage.
Qed.

Lemma confusing_mode_round_trip_witness :
  let c := step NextWord (sample_app 5) in
  currentWords (step ToggleConfusingMode (step ToggleConfusingMode c))
  = currentWords c.
Proof.
  intros c.
  assert (Hr : rendered c) by apply step_rendered.
  by destruct (confusing_mode_round_trip c Hr) as (_ & _ & _ & H & _).
Defined.

Lemma handle_keeps_mode e c :
  (forall d, e <> ChangeDay d) -> e <> ToggleConfusingMode ->
  showConfusing (state (handle e c)) = showConfusing (state c).
Proof.
  intros Hd Ht.
  destruct e as [cleaned|msg| | | | | |day| |idx| | |]; cbn [handle];
    [done|done|done| | | | |by destruct (Hd day)|done|done| |done|done].
  - unfold prevWord. by destruct (_ >? _).
  - unfold nextWord. by destruct (_ <? _).
  - unfold addToConfusing. destruct (currentWord c); [|done].
    by destruct (negb _).
  - unfold removeFromConfusing. by destruct (_ && _).
  - unfold toggleAllAnswers. by destruct (_ =? _)%nat.
Qed.

Lemma handle_hidden e c :
  hiddenAnswers (state (handle e c))
  = match e with
    | ChangeDay _ | ToggleConfusingMode => ∅
    | ToggleAnswer idx =>
        if decide (idx ∈ hiddenAnswers (state c))
        then hiddenAnswers (state c) ∖ {[idx]}
        else hiddenAnswers (state c) ∪ {[idx]}
    | ToggleAllAnswers =>
        if (size (hiddenAnswers (state c)) =? length (currentWords c))%nat
        then ∅ else list_to_set (seq 0 (length (currentWords c)))
    | _ => hiddenAnswers (state c)
    end.
Proof.
  destruct e as [cleaned|msg| | | | | |day| |idx| | |]; cbn [handle];
    try done.
  - unfold prevWord. by destruct (_ >? _).
  - unfold nextWord. by destruct (_ <? _).
  - unfold addToConfusing. destruct (currentWord c); [|done].
    by destruct (negb _).
  - unfold removeFromConfusing. by destruct (_ && _).
  - unfold toggleAllAnswers. by destruct (_ =? _)%nat.
Qed.

(** X17 (hidden marks designate shown words). Along every session,
    outside confusing mode, every index in [hiddenAnswers] is the index
    of a word of the active set; so the set has as many members as
    there are active words exactly when every answer is hidden, which
    is the test [toggleAllAnswers] makes. *)
Theorem hidden_marks_on_shown_words saved g store c :
  session (mount saved g store) c ->
  showConfusing (state c) = false ->
  (forall j, j ∈ hiddenAnswers (state c) -> (j < length (currentWords c))%nat)
  /\ (size (hiddenAnswers (state c)) = length (currentWords c)
      <-> forall j, (j < length (currentWords c))%nat ->
            j ∈ hiddenAnswers (state c)).
Proof.
  intros Hc Hsc.
  assert (H : forall j, j ∈ hiddenAnswers (state c) ->
                (j < length (currentWords c))%nat).
  { induction Hc as [|e c Hc IH Hen].
    - unfold mount. rewrite render_state. cbn. intros j Hj.
      by apply not_elem_of_empty in Hj.
    - destruct (session_sound _ _ (proj1 (mount_sound saved g store))
                  (proj2 (mount_sound saved g store)) Hc) as [Hs Hr].
      pose proof (sound_views_length c Hs Hr) as Hlen.
      assert (Hst : state (step e c) = state (handle e c))
        by apply render_state.
      rewrite Hst in Hsc |- *. rewrite handle_hidden.
      destruct e as [cleaned|msg| | | | | |day| |idx| | |]; try done;
        try (intros j Hj; by apply not_elem_of_empty in Hj).
      1: { (* the corpus arrives: nothing is hidden yet *)
        cbn [enabled] in Hen.
        destruct (session_invariant _ _ _ _ Hc) as (IL & _).
        rewrite (IL Hen). cbn. intros j Hj.
        by apply not_elem_of_empty in Hj. }
      1: { cbn [enabled] in Hen.
        destruct (session_invariant _ _ _ _ Hc) as (IL & _).
        rewrite (IL Hen). cbn. intros j Hj.
        by apply not_elem_of_empty in Hj. }
      all: rewrite handle_keeps_mode in Hsc
             by first [done|intros ?; discriminate];
           specialize (IH Hsc);
           match goal with
           | Hen : enabled ?ev ?cc = true |- _ =>
               assert (Hcw : length (currentWords (step ev cc))
                             = length (currentWords cc));
               [ rewrite step_currentWords
                   by first [done|intros ?; discriminate];
                 rewrite handle_keeps_mode
                   by first [done|intros ?; discriminate];
                 unfold currentWords; rewrite Hsc;
                 unfold JS.len in Hlen;
                 destruct (viewMode (state cc)),
                   (viewMode (state (handle ev cc))); lia
               | rewrite Hcw ]
           end; try done.
      + (* ToggleAnswer *)
        cbn [enabled] in Hen.
        apply andb_true_iff in Hen as [_ Hidx]. apply Nat.ltb_lt in Hidx.
        intros j. destruct (decide (idx ∈ hiddenAnswers (state c))).
        * rewrite elem_of_difference. intros [Hj _]. by apply IH.
        * rewrite elem_of_union, elem_of_singleton.
          intros [Hj| ->]; [by apply IH|done].
      + (* ToggleAllAnswers *)
        intros j. destruct (_ =? _)%nat.
        * intros Hj. by apply not_elem_of_empty in Hj.
        * rewrite elem_of_list_to_set, elem_of_seq. lia. }
  split; [done|].
  set (n := length (currentWords c)) in *.
  assert (Hsub : hiddenAnswers (state c) ⊆ list_to_set (seq 0 n)).
  { intros j Hj. rewrite elem_of_list_to_set, elem_of_seq.
    specialize (H j Hj). lia. }
  assert (Hn : size (list_to_set (seq 0 n) : gset nat) = n).
  { rewrite size_list_to_set by apply NoDup_seq. apply length_seq. }
  split.
  - intros Hsize j Hj.
    assert (Heq : hiddenAnswers (state c) ≡ list_to_set (seq 0 n)).
    { apply set_subseteq_size_equiv; [done|]. rewrite Hn, Hsize. done. }
    apply Heq. rewrite elem_of_list_to_set, elem_of_seq. lia.
  - intros Hall. rewrite <- Hn. f_equal. apply set_eq. intros j.
    rewrite elem_of_list_to_set, elem_of_seq. split.
    + intros Hj. specialize (H j Hj). lia.
    + intros [_ Hj]. apply Hall. lia.
Qed.

Lemma hidden_marks_on_shown_words_witness :
  let c := step (ToggleAnswer 2) (step ToggleViewMode (sample_app 5)) in
  Forall (fun j => (j < 5)%nat) (elements (hiddenAnswers (state c))).
Proof.
  intros c.
  assert (Hc : session (mount [] sample_rng ∅) c).
  { do 3 (apply session_step; [|reflexivity]). apply session_start. }
  destruct (hidden_marks_on_shown_words _ _ _ _ Hc eq_refl) as [H _].
  apply Forall_forall. intros j Hj. apply elem_of_elements in Hj.
  exact (H j Hj).
Defined.

End SessionFacts.

(** * Part V: the two earlier revisions *)

Section RevisionFacts.
Import JSON.

Lemma view_getCurrentWords s :
  Simple.getCurrentWords (first_revision_view s) = Gated.getCurrentWords s.
Proof. done. Qed.

Lemma gated_press_view p s :
  Gated.pendingIndex s = None ->
  first_revision_view (gated_press_settled p s)
  = simple_press p (first_revision_view s)
  /\ Gated.pendingIndex (gated_press_settled p s) = None.
Proof.
  intros Hp. unfold gated_press_settled.
  destruct p; cbn [gated_press simple_press].
  - unfold Gated.nextWord, Simple.nextWord, Gated.goToWord.
    rewrite view_getCurrentWords, Hp. cbn [first_revision_view Simple.currentIndex].
    destruct (_ <? _); unfold Gated.handleTransitionEnd; cbn; [done|].
    by rewrite Hp.
  - unfold Gated.prevWord, Simple.prevWord, Gated.goToWord.
    rewrite Hp. cbn [first_revision_view Simple.currentIndex].
    destruct (_ >? _); unfold Gated.handleTransitionEnd; cbn; [done|].
    by rewrite Hp.
  - unfold Gated.handleTransitionEnd. cbn. by rewrite Hp.
  - unfold Gated.addToConfusing, Simple.addToConfusing,
      Gated.currentWord, Simple.currentWord.
    rewrite view_getCurrentWords. cbn [first_revision_view Simple.currentIndex
      Simple.confusingWords].
    destruct (JS.get _ _) as [w|]; [|unfold Gated.handleTransitionEnd; by rewrite Hp].
    destruct (negb _); unfold Gated.handleTransitionEnd; cbn; by rewrite Hp.
  - unfold Gated.removeFromConfusing, Simple.removeFromConfusing.
    cbn [first_revision_view Simple.currentIndex Simple.confusingWords].
    destruct (_ && _); unfold Gated.handleTransitionEnd; cbn; by rewrite Hp.
  - unfold Gated.handleTransitionEnd. cbn. by rewrite Hp.
  - unfold Gated.handleTransitionEnd. cbn. by rewrite Hp.
  - unfold Gated.handleTransitionEnd. cbn. by rewrite Hp.
Qed.

(** X13 (the gated revision behaves as the first one). From a settled
    state (no pending index), pressing controls one after the other,
    each press followed by the end of the card's animation, the gated
    revision goes through the states of the first revision: what the
    two have in common (corpus, day, position, flip, direction,
    confusing set and mode, loading fields, storage) is equal after
    every press, and the gated state is settled again. *)
Theorem gated_refines_first_revision (ps : list Control) (s : Gated.State) :
  Gated.pendingIndex s = None ->
  first_revision_view (foldl (fun s p => gated_press_settled p s) s ps)
  = foldl (fun s p => simple_press p s) (first_revision_view s) ps
  /\ Gated.pendingIndex (foldl (fun s p => gated_press_settled p s) s ps)
     = None.
Proof.
  revert s. induction ps as [|p ps IH]; intros s Hp; [done|].
  cbn [foldl]. destruct (gated_press_view p s Hp) as [Hv Hp'].
  destruct (IH _ Hp') as [IH1 IH2]. by rewrite IH1, Hv.
Qed.

Lemma gated_press_pending p s q :
  Gated.pendingIndex s = Some q ->
  Gated.pendingIndex (gated_press p s) = Some q.
Proof.
  intros Hp. destruct p; cbn [gated_press]; try done.
  - unfold Gated.nextWord, Gated.goToWord. rewrite Hp. by destruct (_ <? _).
  - unfold Gated.prevWord, Gated.goToWord. rewrite Hp. by destruct (_ >? _).
  - unfold Gated.addToConfusing. destruct (Gated.currentWord s); [|done].
    by destruct (negb _).
  - unfold Gated.removeFromConfusing. by destruct (_ && _).
Qed.



Lemma gated_refines_first_revision_witness :
  let ps := [PressNext; PressAdd; PressNext; PressConfusing; PressRemove] in
  first_revision_view
    (foldl (fun s p => gated_press_settled p s) (sample_gated 5 1) ps)
  = foldl (fun s p => simple_press p s)
      (first_revision_view (sample_gated 5 1)) ps.
Proof.
  intros ps.
  by destruct (gated_refines_first_revision ps (sample_gated 5 1) eq_refl).
Defined.


Lemma browse_step e s :
  browses e = true -> gated_in_range s ->
  Gated.getCurrentWords (gated_event e s) = Gated.getCurrentWords s
  /\ gated_in_range (gated_event e s).
Proof.
  intros He [Hi Hq]. unfold gated_in_range.
  destruct e as [[]|]; try discriminate He; cbn [gated_event gated_press].
  - unfold Gated.nextWord, Gated.goToWord.
    destruct (Z.ltb_spec (Gated.currentIndex s)
                (JS.len (Gated.getCurrentWords s) - 1)); [|done].
    destruct (Gated.pendingIndex s) eqn:Ep;
      [split; [done|split; [done|intros q Hq'; apply Hq; by rewrite <- Ep]]|].
    split; [done|]. split; [exact Hi|]. intros q Hq'. cbn in Hq'.
    injection Hq' as <-.
    change (0 <= Gated.currentIndex s + 1
            < JS.len (Gated.getCurrentWords s)). lia.
  - unfold Gated.prevWord, Gated.goToWord.
    destruct (Z.gtb_spec (Gated.currentIndex s) 0); [|done].
    destruct (Gated.pendingIndex s) eqn:Ep;
      [split; [done|split; [done|intros q Hq'; apply Hq; by rewrite <- Ep]]|].
    split; [done|]. split; [exact Hi|]. intros q Hq'. cbn in Hq'.
    injection Hq' as <-.
    change (0 <= Gated.currentIndex s - 1
            < JS.len (Gated.getCurrentWords s)). lia.
  - done.
  - done.
  - unfold Gated.handleTransitionEnd.
    destruct (Gated.pendingIndex s) as [q|] eqn:Ep;
      [|split; [done|split; [exact Hi|intros q Hq'; congruence]]].
    split; [done|]. split; [|done].
    change (0 <= q < JS.len (Gated.getCurrentWords s)). by apply Hq.
Qed.

(** X15 (browsing keeps the position inside the set). In the gated
    revision, from a position inside the word set, with any pending
    index inside it too, any sequence of next, prev, flip and direction
    presses and animation ends leaves the word set as it is, the
    position and any pending index inside it, and a current word to
    show. *)
Theorem browsing_stays_in_range (es : list CardEvent) (s : Gated.State) :
  forallb browses es = true ->
  0 <= Gated.currentIndex s < JS.len (Gated.getCurrentWords s) ->
  (forall q, Gated.pendingIndex s = Some q ->
     0 <= q < JS.len (Gated.getCurrentWords s)) ->
  let s' := foldl (fun s e => gated_event e s) s es in
  Gated.getCurrentWords s' = Gated.getCurrentWords s
  /\ 0 <= Gated.currentIndex s' < JS.len (Gated.getCurrentWords s)
  /\ is_Some (Gated.currentWord s')
  /\ forall q, Gated.pendingIndex s' = Some q ->
       0 <= q < JS.len (Gated.getCurrentWords s).
Proof.
  intros Hes Hi Hq s'.
  assert (H : Gated.getCurrentWords s' = Gated.getCurrentWords s
              /\ gated_in_range s').
  { unfold s'. clear s'. assert (Hr : gated_in_range s) by done.
    clear Hi Hq. revert s Hr.
    induction es as [|e es IH]; intros s Hr; [done|].
    cbn [forallb] in Hes. apply andb_true_iff in Hes as [He Hes].
    cbn [foldl]. destruct (browse_step e s He Hr) as [Hw Hr'].
    destruct (IH Hes _ Hr') as [IH1 IH2]. by rewrite IH1. }
  destruct H as [Hw [Hi' Hq']]. rewrite Hw in Hi', Hq'.
  split; [done|]. split; [done|]. split; [|done].
  unfold Gated.currentWord, JS.get. rewrite Hw.
  destruct (Z.ltb_spec (Gated.currentIndex s') 0); [lia|].
  apply lookup_lt_is_Some_2. unfold JS.len in Hi'. lia.
Qed.

Lemma browsing_stays_in_range_witness :
  let s' := foldl (fun s e => gated_event e s) (sample_gated 5 3)
              [Press PressNext; Press PressNext; TransitionEnd;
               Press PressNext; TransitionEnd; Press PressPrev] in
  0 <= Gated.currentIndex s' < 5 /\ is_Some (Gated.currentWord s').
Proof.
  intros s'.
  assert (Hi : 0 <= Gated.currentIndex (sample_gated 5 3)
               < JS.len (Gated.getCurrentWords (sample_gated 5 3)))
    by (by vm_compute).
  assert (Hq : forall q, Gated.pendingIndex (sample_gated 5 3) = Some q ->
               0 <= q < JS.len (Gated.getCurrentWords (sample_gated 5 3)))
    by (intros q Hq; discriminate Hq).
  destruct (browsing_stays_in_range
              [Press PressNext; Press PressNext; TransitionEnd;
               Press PressNext; TransitionEnd; Press PressPrev]
              (sample_gated 5 3) eq_refl Hi Hq) as (_ & H1 & H2 & _).
  split; [exact H1|exact H2].
Defined.

End RevisionFacts.

(** * Part VI: the orders the shuffle can give *)

Section ShuffleOrders.
Local Open Scope nat_scope.
Context {A : Type}.
Implicit Types (a arr target : list A) (i j k p : nat) (g : Rng) (x : A).

Lemma drop_swap a i j n : i < n -> j < n -> drop n (swap a i j) = drop n a.
Proof.
  intros Hi Hj. apply list_eq. intros k. rewrite !lookup_drop.
  apply swap_lookup_ne; lia.
Qed.

Lemma choices_cons i j cs :
  j < S (S i) -> cs ∈ choices i -> j :: cs ∈ choices (S i).
Proof.
  intros Hj Hcs. cbn [choices]. apply list_elem_of_bind. exists j.
  split; [by apply list_elem_of_fmap_2|]. apply elem_of_seq. lia.
Qed.

Lemma choices_inv i cs :
  cs ∈ choices (S i) ->
  exists j cs', cs = j :: cs' /\ j < S (S i) /\ cs' ∈ choices i.
Proof.
  cbn [choices]. intros (j & Hcs & Hj)%list_elem_of_bind.
  apply list_elem_of_fmap in Hcs as (cs' & -> & Hcs').
  apply elem_of_seq in Hj. exists j, cs'. split; [done|]. split; [lia|done].
Qed.

(** The swap at [i] with [j] brings [a[j]] to the cell [i] and leaves in
    the first [i] cells the rest of the first [i + 1]. *)
Lemma swap_split a i j y :
  i < length a -> j <= i -> a !! j = Some y ->
  swap a i j !! i = Some y
  /\ take i (swap a i j) ++ [y] ≡ₚ take (S i) a.
Proof.
  intros Hi Hj Hy.
  assert (Hbi : swap a i j !! i = Some y).
  { rewrite swap_lookup by lia. repeat case_decide; by subst. }
  split; [done|].
  rewrite <- (take_S_r _ _ _ Hbi), take_swap by lia. apply swap_perm.
Qed.

(** Every rearrangement of the cells [0 .. i] is the result of some
    choices. *)
Lemma shuffle_steps_reach i : forall a target,
  i < length a ->
  take (S i) target ≡ₚ take (S i) a ->
  drop (S i) target = drop (S i) a ->
  exists cs, cs ∈ choices i /\ shuffle_steps i a cs = target.
Proof.
  induction i as [|i IH]; intros a target Hi Hperm Hdrop.
  - exists []. split; [by apply list_elem_of_singleton|].
    cbn [shuffle_steps].
    rewrite <- (take_drop 1 a), <- (take_drop 1 target), Hdrop. f_equal.
    destruct a as [|y a]; [cbn in Hi; lia|]. cbn [take] in *.
    symmetry. by apply Permutation_singleton_r.
  - assert (Hlt : S i < length target).
    { apply Permutation_length in Hperm. rewrite !length_take in Hperm. lia. }
    destruct (lookup_lt_is_Some_2 target (S i) Hlt) as [x Hx].
    assert (Hin : x ∈ take (S (S i)) a).
    { rewrite <- Hperm. apply list_elem_of_lookup. exists (S i).
      by rewrite lookup_take_lt by lia. }
    apply list_elem_of_lookup in Hin as [j Hj].
    pose proof (lookup_lt_Some _ _ _ Hj) as Hjlt.
    rewrite length_take in Hjlt.
    rewrite lookup_take_lt in Hj by lia.
    destruct (swap_split a (S i) j x) as [Hbi Hsp]; [lia..|done|].
    destruct (IH (swap a (S i) j) target) as (cs & Hcs & Hrun).
    + rewrite swap_length. lia.
    + apply (Permutation_app_inv_r [x]). rewrite Hsp, <- Hperm.
      by rewrite (take_S_r _ _ _ Hx).
    + rewrite (drop_S _ _ _ Hx), (drop_S _ _ _ Hbi), Hdrop.
      by rewrite drop_swap by lia.
    + exists (j :: cs). split; [apply choices_cons; [lia|done]|].
      cbn [shuffle_steps hd tl]. by rewrite Nat.mod_small by lia.
Qed.

(** Different choices give different results when the cells [0 .. i]
    hold distinct elements. *)
Lemma shuffle_steps_inj i : forall a cs1 cs2,
  i < length a -> NoDup (take (S i) a) ->
  cs1 ∈ choices i -> cs2 ∈ choices i ->
  shuffle_steps i a cs1 = shuffle_steps i a cs2 -> cs1 = cs2.
Proof.
  induction i as [|i IH]; intros a cs1 cs2 Hi Hnd H1 H2 Heq.
  - apply list_elem_of_singleton in H1, H2. by subst.
  - apply choices_inv in H1 as (j1 & cs1' & -> & Hj1 & H1).
    apply choices_inv in H2 as (j2 & cs2' & -> & Hj2 & H2).
    cbn [shuffle_steps hd tl] in Heq.
    rewrite !Nat.mod_small in Heq by lia.
    destruct (lookup_lt_is_Some_2 a j1 ltac:(lia)) as [y1 Hy1].
    destruct (lookup_lt_is_Some_2 a j2 ltac:(lia)) as [y2 Hy2].
    destruct (swap_split a (S i) j1 y1) as [Hb1 Hsp1]; [lia..|done|].
    destruct (swap_split a (S i) j2 y2) as [Hb2 _]; [lia..|done|].
    assert (Hy : y1 = y2).
    { pose proof (f_equal (fun l => l !! S i) Heq) as Hl. cbn beta in Hl.
      rewrite !shuffle_steps_frame in Hl by lia. congruence. }
    subst y2.
    assert (Hj : j1 = j2).
    { apply (NoDup_lookup (take (S (S i)) a) j1 j2 y1 Hnd);
        by rewrite lookup_take_lt by lia. }
    subst j2. f_equal.
    apply (IH (swap a (S i) j1)); [rewrite swap_length; lia| |done|done|done].
    rewrite <- Hsp1 in Hnd. by apply NoDup_app in Hnd as (Hnd & _).
Qed.

Lemma shuffleArray_choices arr cs :
  cs ∈ choices (length arr - 1) ->
  (shuffleArray arr (rng_of cs)).1 = shuffle_steps (length arr - 1) arr cs.
Proof.
  intros Hcs. unfold shuffleArray. rewrite shuffle_loop_steps.
  cbn [rng_of consumed].
  rewrite <- (choices_elem_length _ _ Hcs) at 2.
  change (fun k => nth k cs 0) with (outcomes (rng_of cs)).
  by rewrite rng_of_outcomes.
Qed.

(** X16 (the shuffle can give every order, each in one way). For every
    rearrangement of the input there is a sequence of random choices,
    one per swap, for which [shuffleArray] returns it; and when the
    elements are distinct, two such sequences that give the same result
    are the same sequence. With the [n!] sequences equally likely, each
    order of [n] distinct elements is then equally likely. *)
Theorem shuffle_every_order_once arr target :
  target ≡ₚ arr ->
  (exists cs, cs ∈ choices (length arr - 1)
              /\ (shuffleArray arr (rng_of cs)).1 = target)
  /\ (NoDup arr -> forall cs1 cs2,
        cs1 ∈ choices (length arr - 1) -> cs2 ∈ choices (length arr - 1) ->
        (shuffleArray arr (rng_of cs1)).1 = target ->
        (shuffleArray arr (rng_of cs2)).1 = target ->
        cs1 = cs2).
Proof.
  intros Hperm.
  destruct (decide (length arr = 0)) as [Hz|Hnz].
  - apply length_zero_iff_nil in Hz as ->.
    apply Permutation_nil_r in Hperm as ->. split.
    + exists []. split; [by apply list_elem_of_singleton|done].
    + intros _ cs1 cs2 H1 H2 _ _.
      apply list_elem_of_singleton in H1, H2. by subst.
  - assert (Hlen : length target = length arr) by by apply Permutation_length.
    assert (HS : S (length arr - 1) = length arr) by lia.
    split.
    + destruct (shuffle_steps_reach (length arr - 1) arr target)
        as (cs & Hcs & Hrun); [lia| | |].
      * rewrite HS. by rewrite <- Hlen at 1; rewrite !firstn_all.
      * rewrite HS. by rewrite <- Hlen at 1; rewrite !drop_all.
      * exists cs. split; [done|]. by rewrite shuffleArray_choices.
    + intros Hnd cs1 cs2 H1 H2 E1 E2.
      rewrite shuffleArray_choices in E1, E2 by done.
      apply (shuffle_steps_inj (length arr - 1) arr); [lia| |done|done|congruence].
      by rewrite HS, firstn_all.
Qed.

End ShuffleOrders.

Lemma shuffle_every_order_once_witness :
  exists cs, cs ∈ choices 2
    /\ (shuffleArray [1; 2; 3]%nat (rng_of cs)).1 = [3; 1; 2]%nat.
Proof.
  assert (Hp : [3; 1; 2]%nat ≡ₚ [1; 2; 3]%nat)
    by apply (Permutation_cons_append [1; 2]%nat 3%nat).
  exact (proj1 (shuffle_every_order_once [1; 2; 3]%nat [3; 1; 2]%nat Hp)).
Defined.
